(** * isaacutils: post attribute extraction and the batching e-mail handler

    A shallow embedding of [src/isaacutils/posts.py] and
    [src/isaacutils/mail.py], with the properties of their specification
    stated and settled on the embedding.

    - [Module Posts]: JSON-like post objects as a tree of dictionaries
      ([gmap]), [get_post_attr] with its exceptions and its warning log.
    - [Module Mail]: [_escape_html] and the HTML rendering on strings,
      the sender thread's body over an abstract mail transport, and
      [EmailHandler] as a state machine over a store of mutable
      sequences, a lock with an owner, the threads it starts and a trace
      of what each call did.
    - [Module PostsFacts], [Module MailFacts]: the properties. *)

From Stdlib Require Import ZArith Ascii String List Lia Bool.
From stdpp Require Import base option gmap strings list fin_maps pretty.

#[local] Set Warnings "-register-all".
#[local] Open Scope string_scope.

(* ===================================================================== *)
(** * posts.py *)
(* ===================================================================== *)

Module Posts.

(** ** Python values as they come out of a JSON document *)

Inductive value : Type :=
| VNone
| VBool (b : bool)
| VInt (z : Z)
| VStr (s : string)
| VList (l : list value)
| VDict (d : gmap string value).

(** The exceptions [get_post_attr] can raise. *)
Inductive exn : Type :=
| AttributeError   (* [.get] on an object that is not a dict *)
| AssertionError   (* [assert len(set(_values)) == 1] *)
| TypeError.       (* [set(...)] over an unhashable value *)

(** What a call does: it returns, it raises, or (for the model of the
    [while] loop only) the fuel ran out. [get_post_attr_total] shows that
    the last case never happens. *)
Inductive outcome (A : Type) : Type :=
| Returns (a : A)
| Raises (e : exn)
| OutOfFuel.
Arguments Returns {A} a.
Arguments Raises {A} e.
Arguments OutOfFuel {A}.

#[global] Instance outcome_ret : MRet outcome := fun A a => Returns a.
#[global] Instance outcome_bind : MBind outcome := fun A B f m =>
  match m with
  | Returns a => f a
  | Raises e => Raises e
  | OutOfFuel => OutOfFuel
  end.

Definition is_dict (v : value) : bool :=
  match v with VDict _ => true | _ => false end.

(** [obj.get(key, dflt)]: only dicts have the method. *)
Definition get (obj : value) (key : string) (dflt : value) : outcome value :=
  match obj with
  | VDict d => Returns (default dflt (d !! key))
  | _ => Raises AttributeError
  end.

(** [v == s] for a string literal [s]. *)
Definition eq_str (v : value) (s : string) : bool :=
  match v with
  | VStr x => String.eqb x s
  | _ => false
  end.

(** [a == b] on hashable values. [bool] is a subclass of [int] in Python:
    [True == 1] and [False == 0]. *)
Definition py_eq (a b : value) : bool :=
  match a, b with
  | VNone, VNone => true
  | VBool x, VBool y => Bool.eqb x y
  | VInt x, VInt y => (x =? y)%Z
  | VBool x, VInt y => (Z.b2z x =? y)%Z
  | VInt x, VBool y => (x =? Z.b2z y)%Z
  | VStr x, VStr y => String.eqb x y
  | _, _ => false
  end.

Definition hashable (v : value) : bool :=
  match v with
  | VList _ | VDict _ => false
  | _ => true
  end.

(** [set(vs)]: raises on the first unhashable element, otherwise keeps
    one representative of each class of equal values. *)
Fixpoint set_add (v : value) (s : list value) : list value :=
  match s with
  | [] => [v]
  | x :: s' => if py_eq x v then s else x :: set_add v s'
  end.

Fixpoint py_set_from (vs : list value) (acc : list value) : outcome (list value) :=
  match vs with
  | [] => Returns acc
  | v :: vs' =>
      if hashable v then py_set_from vs' (set_add v acc) else Raises TypeError
  end.

Definition py_set (vs : list value) : outcome (list value) := py_set_from vs [].

(** [s.split(sep)] for a one-character separator. *)
Fixpoint split (sep : ascii) (s : string) : list string :=
  match s with
  | EmptyString => [EmptyString]
  | String c s' =>
      if Ascii.eqb c sep then EmptyString :: split sep s'
      else match split sep s' with
           | w :: ws => String c w :: ws
           | [] => [String c EmptyString]
           end
  end.

(** ** [get_post_attr] *)

Definition wrapper_typename : string := "TweetWithVisibilityResults".

(** Height of the tree of dictionaries: the [while] loop goes down one
    dictionary per iteration, so this bounds its iterations. *)
Fixpoint depth (v : value) : nat :=
  match v with
  | VDict d => S (map_fold (fun _ x acc => Nat.max (depth x) acc) 0 d)
  | _ => 0
  end.

(** Lines 31-32:
<<
    while post_obj.get("__typename") == "TweetWithVisibilityResults":
        post_obj = post_obj.get("tweet", {})
>> *)
Fixpoint unwrap (fuel : nat) (post_obj : value) : outcome value :=
  match fuel with
  | O => OutOfFuel
  | S n =>
      t ← get post_obj "__typename" VNone;
      if eq_str t wrapper_typename then
        inner ← get post_obj "tweet" (VDict ∅);
        unwrap n inner
      else Returns post_obj
  end.

(** Lines 41-42: the walk along one path. *)
Fixpoint walk (_cursor : value) (_path : list string) : outcome value :=
  match _path with
  | [] => Returns _cursor
  | _part :: rest =>
      c ← get _cursor _part (VDict ∅);
      walk c rest
  end.

(** Lines 38-44: the loop over the candidate paths. *)
Fixpoint collect (post_obj : value) (paths : list string) (_values : list value)
  : outcome (list value) :=
  match paths with
  | [] => Returns _values
  | _path :: rest =>
      _cursor ← walk post_obj (split "." _path);
      collect post_obj rest
        (if is_dict _cursor then _values else _values ++ [_cursor])
  end.

Definition unknown_attr_warning (attr : string) : string :=
  "Unkown attr '" ++ attr ++ "'; skipping extraction.".

(** Lines 37-51, after the table lookup. *)
Definition resolve (post_obj : value) (paths : list string) : outcome value :=
  _values ← collect post_obj paths [];
  match _values with
  | [] => Returns VNone
  | _value :: _ =>
      s ← py_set _values;
      if Nat.eqb (length s) 1 then Returns _value else Raises AssertionError
  end.

(** The loop of lines 31-32 as [get_post_attr] runs it: with more steps
    than the object is deep. *)
Definition unwrapped (post_obj : value) : outcome value :=
  unwrap (S (depth post_obj)) post_obj.

(** The function returns its outcome and the warnings it logged. *)
Definition get_post_attr (post_obj : value) (attr : string)
    (post_attr_paths : gmap string (list string)) : outcome value * list string :=
  if String.eqb attr "__typename" then
    (get post_obj "__typename" VNone, [])
  else
    match unwrapped post_obj with
    | Returns post_obj =>
        match post_attr_paths !! attr with
        | None => (Returns VNone, [unknown_attr_warning attr])
        | Some paths => (resolve post_obj paths, [])
        end
    | Raises e => (Raises e, [])
    | OutOfFuel => (OutOfFuel, [])
    end.

(** ** Wrappers *)

(** One [TweetWithVisibilityResults] envelope around [inner]; [extra]
    holds whatever other keys the envelope has. *)
Definition wrapper (extra : gmap string value) (inner : value) : value :=
  VDict (<["__typename" := VStr wrapper_typename]> (<["tweet" := inner]> extra)).

(** Envelopes nested one in the other, outermost first. *)
Definition wrap (extras : list (gmap string value)) (inner : value) : value :=
  foldr wrapper inner extras.

(** The objects the loop of lines 31-32 gets through: a dict that is not
    an envelope, or an envelope whose ["tweet"] entry (an empty dict when
    the key is missing) is such an object again. *)
Inductive well_wrapped : value -> Prop :=
| ww_plain (d : gmap string value) :
    eq_str (default VNone (d !! "__typename")) wrapper_typename = false ->
    well_wrapped (VDict d)
| ww_envelope (d : gmap string value) :
    eq_str (default VNone (d !! "__typename")) wrapper_typename = true ->
    well_wrapped (default (VDict ∅) (d !! "tweet")) ->
    well_wrapped (VDict d).

(** ** Example objects *)

Definition text_table : gmap string (list string) :=
  {[ "text" := ["note_tweet.note_tweet_results.result.text"; "legacy.full_text"] ]}.

(** A post in which only [legacy.full_text] is present. *)
Definition legacy_post (s : string) : value :=
  VDict {[ "legacy" := VDict {[ "full_text" := VStr s ]} ]}.

(** A long post: the note and the (shortened) legacy text are both there. *)
Definition long_post (note legacy : string) : value :=
  VDict {[ "__typename" := VStr "Tweet";
           "note_tweet" :=
             VDict {[ "note_tweet_results" :=
                        VDict {[ "result" := VDict {[ "text" := VStr note ]} ]} ]};
           "legacy" := VDict {[ "full_text" := VStr legacy ]} ]}.

(** ** [get_post_attrs] *)

(** Lines 70-73. The table is a Python dict: its entries in insertion
    order, which is the order of [post_attr_paths.keys()]; [get_post_attr]
    looks names up in it. The loop stops at the first call that raises. *)
Fixpoint get_post_attrs_from (post_obj : value)
    (post_attr_paths : gmap string (list string)) (attrs : list string)
    (_results : gmap string value) : outcome (gmap string value) * list string :=
  match attrs with
  | [] => (Returns _results, [])
  | _attr :: rest =>
      match get_post_attr post_obj _attr post_attr_paths with
      | (Returns v, ws) =>
          let (r, ws') :=
            get_post_attrs_from post_obj post_attr_paths rest (<[_attr := v]> _results) in
          (r, (ws ++ ws')%list)
      | (Raises e, ws) => (Raises e, ws)
      | (OutOfFuel, ws) => (OutOfFuel, ws)
      end
  end.

Definition get_post_attrs (post_obj : value) (items : list (string * list string))
  : outcome (gmap string value) * list string :=
  get_post_attrs_from post_obj (list_to_map items) (items.*1) ∅.

(** ** What the agreement test amounts to *)

(** The result for the values collected from the candidates: nothing
    collected gives [None]; an unhashable value makes [set] fail; otherwise
    the first value is returned when every later one equals it. *)
Definition agreed (_values : list value) : outcome value :=
  match _values with
  | [] => Returns VNone
  | v :: rest =>
      if forallb hashable _values then
        if forallb (py_eq v) rest then Returns v else Raises AssertionError
      else Raises TypeError
  end.

(** The result for a single candidate, from where its walk ends. *)
Definition single (walked : outcome value) : outcome value :=
  match walked with
  | Returns (VDict _) => Returns VNone
  | Returns (VList _) => Raises TypeError
  | Returns v => Returns v
  | Raises e => Raises e
  | OutOfFuel => OutOfFuel
  end.

End Posts.

(* ===================================================================== *)
(** * mail.py *)
(* ===================================================================== *)

Module Mail.

(** ** Strings *)

Definition dquote : ascii := "034"%char.
Definition nl : string := String "010"%char EmptyString.

(** [text.replace(old, new)] for a one-character [old]. *)
Fixpoint replace (old : ascii) (new : string) (text : string) : string :=
  match text with
  | EmptyString => EmptyString
  | String c rest =>
      if Ascii.eqb c old then new ++ replace old new rest
      else String c (replace old new rest)
  end.

(** Lines 228-236. *)
Definition _escape_html (text : string) : string :=
  replace "'" "&#39;"
    (replace dquote "&quot;"
       (replace ">" "&gt;"
          (replace "<" "&lt;"
             (replace "&" "&amp;" text)))).

(** What the five replacements are meant to compute: every character
    mapped on its own. *)
Definition escape_char (c : ascii) : string :=
  if Ascii.eqb c "&" then "&amp;"
  else if Ascii.eqb c "<" then "&lt;"
  else if Ascii.eqb c ">" then "&gt;"
  else if Ascii.eqb c dquote then "&quot;"
  else if Ascii.eqb c "'" then "&#39;"
  else String c EmptyString.

Fixpoint escape_chars (text : string) : string :=
  match text with
  | EmptyString => EmptyString
  | String c rest => escape_char c ++ escape_chars rest
  end.

Definition is_special (c : ascii) : bool :=
  Ascii.eqb c "&" || Ascii.eqb c "<" || Ascii.eqb c ">"
  || Ascii.eqb c dquote || Ascii.eqb c "'".

(** The inverse reading of the five entities, left to right. [skip] is
    the number of characters of an entity still to pass over. *)
Fixpoint unescape_from (skip : nat) (text : string) : string :=
  match text with
  | EmptyString => EmptyString
  | String c rest =>
      match skip with
      | S k => unescape_from k rest
      | O =>
          if String.prefix "&amp;" text then String "&" (unescape_from 4 rest)
          else if String.prefix "&lt;" text then String "<" (unescape_from 3 rest)
          else if String.prefix "&gt;" text then String ">" (unescape_from 3 rest)
          else if String.prefix "&quot;" text then String dquote (unescape_from 5 rest)
          else if String.prefix "&#39;" text then String "'" (unescape_from 4 rest)
          else String c (unescape_from 0 rest)
      end
  end.

Definition unescape_html (text : string) : string := unescape_from 0 text.

Fixpoint occurs (c : ascii) (text : string) : bool :=
  match text with
  | EmptyString => false
  | String x rest => Ascii.eqb x c || occurs c rest
  end.

(** ** Log records and their rendering *)

Record LogRecord : Type := {
  levelname : string;
  getMessage : string;
  created : Z;
  pathname : string;
  lineno : Z;
  funcName : string;
  (* [''.join(traceback.format_exception( *exc_info))] when [exc_info] is set *)
  exc_info : option string
}.

Definition quoted (s : string) : string :=
  String dquote (s ++ String dquote EmptyString).

Definition lines (ls : list string) : string :=
  String.concat nl ls.

(** Lines 207-213: the block [_format_html_batch] renders for a trace. *)
Definition stacktrace_open : string :=
  lines [ "";
          "                <div class=" ++ quoted "error-message" ++ ">";
          "                    <strong>Stack Trace:</strong>";
          "                    <div class=" ++ quoted "stacktrace" ++ ">" ].

Definition stacktrace_close : string :=
  lines [ "</div>";
          "                </div>";
          "                " ].

Definition stacktrace_block (exc_text : string) : string :=
  stacktrace_open ++ _escape_html exc_text ++ stacktrace_close.

Section Format.

(** [datetime.fromtimestamp(t).strftime(...)] depends on the local time
    zone; the rendering is parametric in it. *)
Variable _format_time : Z -> string.

Definition html_head : string :=
  lines [ "";
    "        <!DOCTYPE html>";
    "        <html>";
    "        <head>";
    "            <style>";
    "                body { font-family: Arial, sans-serif; line-height: 1.6; color: #333; }";
    "                .error-container { margin: 20px 0; padding: 15px; border-left: 4px solid #d32f2f; background: #ffebee; }";
    "                .critical-container { margin: 20px 0; padding: 15px; border-left: 4px solid #b71c1c; background: #ffcdd2; }";
    "                .error-header { font-weight: bold; color: #d32f2f; margin-bottom: 10px; }";
    "                .critical-header { font-weight: bold; color: #b71c1c; margin-bottom: 10px; }";
    "                .error-time { color: #666; font-size: 0.9em; }";
    "                .error-location { color: #666; font-size: 0.9em; margin: 5px 0; }";
    "                .error-message { margin: 10px 0; padding: 10px; background: white; border-radius: 4px; }";
    "                .stacktrace { background: #263238; color: #aed581; padding: 15px; border-radius: 4px;";
    "                             overflow-x: auto; font-family: 'Courier New', monospace; font-size: 0.85em;";
    "                             white-space: pre-wrap; word-wrap: break-word; }";
    "                .summary { background: #e3f2fd; padding: 15px; border-radius: 4px; margin-bottom: 20px; }";
    "            </style>";
    "        </head>";
    "        <body>";
    "        " ].

Definition html_summary (records : list LogRecord) (first last : LogRecord) : string :=
  lines [ "";
    "            <div class=" ++ quoted "summary" ++ ">";
    "                <strong>Summary:</strong> " ++ pretty (length records)
      ++ " error(s) occurred<br>";
    "                <strong>Time Range:</strong> " ++ _format_time (created first)
      ++ " - " ++ _format_time (created last);
    "            </div>";
    "            " ].

Definition html_record (many : bool) (i : nat) (record : LogRecord) : string :=
  let critical := String.eqb (levelname record) "CRITICAL" in
  let container_class := if critical then "critical-container" else "error-container" in
  let header_class := if critical then "critical-header" else "error-header" in
  lines [ "";
    "            <div class=" ++ quoted container_class ++ ">";
    "                <div class=" ++ quoted header_class ++ ">";
    "                    " ++ (if many then "Error " ++ pretty i ++ " - " else "")
      ++ levelname record ++ ": " ++ getMessage record;
    "                </div>";
    "                <div class=" ++ quoted "error-time" ++ ">Time: "
      ++ _format_time (created record) ++ "</div>";
    "                <div class=" ++ quoted "error-location" ++ ">";
    "                    Location: " ++ pathname record ++ ":" ++ pretty (lineno record)
      ++ " in " ++ funcName record ++ "()";
    "                </div>";
    "            " ]
  ++ match exc_info record with
     | Some exc_text => stacktrace_block exc_text
     | None => ""
     end
  ++ "</div>".

(** [for i, record in enumerate(records, 1)] *)
Fixpoint html_records (many : bool) (i : nat) (records : list LogRecord) : string :=
  match records with
  | [] => ""
  | record :: rest => html_record many i record ++ html_records many (S i) rest
  end.

Definition html_tail : string :=
  lines [ ""; "        </body>"; "        </html>"; "        " ].

(** Lines 159-221. *)
Definition _format_html_batch (records : list LogRecord) : string :=
  let many := Nat.ltb 1 (length records) in
  html_head
  ++ match records with
     | first :: _ :: _ => html_summary records first (List.last records first)
     | _ => ""
     end
  ++ html_records many 1 records
  ++ html_tail.

End Format.

(** ** Sending: [send_html_alert] and the thread body *)

(** A raised Python exception: [str(e)], and whether its class derives
    from [Exception] (what [except Exception] catches) or only from
    [BaseException]. *)
Record exception : Type := {
  exc_str : string;
  is_Exception : bool
}.

Record message : Type := {
  msg_subject : string;
  msg_from : string;
  msg_to : string;
  msg_html : string
}.

(** The constructor arguments the handler keeps. [to_addr] is one address
    or a list of them. *)
Record config : Type := {
  from_addr : string;
  to_addr : string + list string;
  subject_prefix : string;
  pwdfile : string;
  smtp_server : string;
  smtp_port : Z
}.

(** How the [with smtplib.SMTP(...) as s:] block of lines 61-64 ends.
    Connecting, [starttls], [login] or [send_message] may raise before the
    server has accepted the message. Once it is accepted, leaving the
    block sends QUIT, and [SMTP.__exit__] raises when the answer is not
    221: the message has gone and the call still raises. *)
Inductive session : Type :=
| Sent
| Failed (exc : exception)
| SentThenFailed (exc : exception).

(** What lies outside the program: the password file under the home
    directory (its stripped text, or the exception reading it raises) and
    the SMTP session. *)
Record env : Type := {
  read_password : string -> exception + string;
  smtp_session : string -> Z -> string -> string -> message -> session
}.

(** What the program leaves behind: delivered messages and the two output
    streams. *)
Record world : Type := {
  outbox : list message;
  stdout : list string;
  stderr : list string
}.

Definition deliver (m : message) (w : world) : world :=
  {| outbox := (outbox w ++ [m])%list; stdout := stdout w; stderr := stderr w |}.

(** [print(text, flush=True)]: no [file=] argument, so [sys.stdout]. *)
Definition print (text : string) (w : world) : world :=
  {| outbox := outbox w; stdout := (stdout w ++ [text])%list; stderr := stderr w |}.

Definition to_header (to : string + list string) : string :=
  match to with
  | inl addr => addr
  | inr addrs => String.concat ", " addrs
  end.

(** Lines 38-64. The result is the exception that escapes, if any. *)
Definition send_html_alert (e : env) (from : string) (to : string + list string)
    (subject html_body pwdfile : string) (server : string) (port : Z)
    (w : world) : option exception * world :=
  match read_password e pwdfile with
  | inl exc => (Some exc, w)
  | inr pwd =>
      let msg := {| msg_subject := subject; msg_from := from;
                    msg_to := to_header to; msg_html := html_body |} in
      match smtp_session e server port from pwd msg with
      | Sent => (None, deliver msg w)
      | Failed exc => (Some exc, w)
      | SentThenFailed exc => (Some exc, deliver msg w)
      end
  end.

Section Sender.

Variable _format_time : Z -> string.
Variable e : env.
Variable self : config.

Definition batch_subject (records : list LogRecord) : string :=
  match records with
  | [record] =>
      subject_prefix self ++ " " ++ levelname record ++ ": " ++ getMessage record
  | _ => subject_prefix self ++ " " ++ pretty (length records) ++ " errors occurred"
  end.

(** Lines 136-157, the body of the sender thread. The result is the
    exception that escapes the [try], if any. *)
Definition _send_email_batch (records : list LogRecord) (w : world)
  : option exception * world :=
  let subject := batch_subject records in
  let html_body := _format_html_batch _format_time records in
  match send_html_alert e (from_addr self) (to_addr self) subject html_body
          (pwdfile self) (smtp_server self) (smtp_port self) w with
  | (None, w') => (None, w')
  | (Some exc, w') =>
      if is_Exception exc
      then (None, print ("EmailHandler failed to send: " ++ exc_str exc) w')
      else (Some exc, w')
  end.

End Sender.

(** ** The handler: queue, lock and threads *)

Definition tid := nat.
Definition loc := nat.

Record thread : Type := {
  th_records : loc;     (* [args=(records,)] *)
  th_daemon : bool
}.

Inductive event : Type :=
| EvAcquire
| EvRelease
| EvAppend (record : LogRecord)
| EvDetach (records : loc)
| EvStart (th : thread)
| EvJoin (th : thread)
| EvClose.

(** The state of one [EmailHandler]. [objs] is the store of the mutable
    sequences ([self.error_queue] and the lists copied from it), so that
    two names for one object would show. [batch_lock] is [Some t] while
    thread [t] holds [self.batch_lock]. [trace] records every step with
    the thread that took it and the holder of the lock at that moment. *)
Record state : Type := {
  max_batch_size : option Z;
  objs : gmap loc (list LogRecord);
  error_queue : loc;
  batch_lock : option tid;
  threads : list thread;
  closed : bool;
  trace : list (tid * event * option tid)
}.

(** [__init__] (lines 80-96). [atexit.register(self.flush)] makes the
    interpreter call [flush] once more when it exits. *)
Definition init (max_batch_size : option Z) : state :=
  {| max_batch_size := max_batch_size;
     objs := {[ 0 := [] ]};
     error_queue := 0;
     batch_lock := None;
     threads := [];
     closed := false;
     trace := [] |}.

Definition read (l : loc) (s : state) : list LogRecord :=
  default [] (objs s !! l).

Definition queue (s : state) : list LogRecord := read (error_queue s) s.

(** What each started sender thread has been given, oldest first. *)
Definition batches (s : state) : list (list LogRecord) :=
  map (fun th => read (th_records th) s) (threads s).

(** A call either returns or stops at [batch_lock.acquire()] because the
    lock is taken. *)
Inductive result (A : Type) : Type :=
| Done (a : A) (s : state)
| Blocked (s : state).
Arguments Done {A} a s.
Arguments Blocked {A} s.

Definition M (A : Type) : Type := state -> result A.

#[global] Instance M_ret : MRet M := fun A a s => Done a s.
#[global] Instance M_bind : MBind M := fun A B f m s =>
  match m s with
  | Done a s' => f a s'
  | Blocked s' => Blocked s'
  end.

Definition gets {A : Type} (f : state -> A) : M A := fun s => Done (f s) s.

(** Nothing to do ([pass], or a branch not taken). *)
Definition skip : M unit := mret tt.

Definition log (t : tid) (ev : event) (s : state) : state :=
  {| max_batch_size := max_batch_size s; objs := objs s;
     error_queue := error_queue s; batch_lock := batch_lock s;
     threads := threads s; closed := closed s;
     trace := (trace s ++ [(t, ev, batch_lock s)])%list |}.

Definition set_lock (o : option tid) (s : state) : state :=
  {| max_batch_size := max_batch_size s; objs := objs s;
     error_queue := error_queue s; batch_lock := o;
     threads := threads s; closed := closed s; trace := trace s |}.

Definition set_objs (m : gmap loc (list LogRecord)) (s : state) : state :=
  {| max_batch_size := max_batch_size s; objs := m;
     error_queue := error_queue s; batch_lock := batch_lock s;
     threads := threads s; closed := closed s; trace := trace s |}.

Definition add_thread (th : thread) (s : state) : state :=
  {| max_batch_size := max_batch_size s; objs := objs s;
     error_queue := error_queue s; batch_lock := batch_lock s;
     threads := (threads s ++ [th])%list; closed := closed s; trace := trace s |}.

Definition set_closed (s : state) : state :=
  {| max_batch_size := max_batch_size s; objs := objs s;
     error_queue := error_queue s; batch_lock := batch_lock s;
     threads := threads s; closed := true; trace := trace s |}.

(** [threading.Lock] is not reentrant: [acquire] waits whoever holds the
    lock, the caller included. *)
Definition acquire (t : tid) : M unit := fun s =>
  match batch_lock s with
  | None => Done tt (set_lock (Some t) (log t EvAcquire s))
  | Some _ => Blocked s
  end.

Definition release (t : tid) : M unit := fun s =>
  Done tt (set_lock None (log t EvRelease s)).

(** [with self.batch_lock: body] *)
Definition with_lock {A : Type} (t : tid) (body : M A) : M A :=
  acquire t ;; a ← body; release t ;; mret a.

(** [self.error_queue.append(record)] *)
Definition append (t : tid) (record : LogRecord) : M unit := fun s =>
  Done tt (set_objs (<[error_queue s := (queue s ++ [record])%list]> (objs s))
             (log t (EvAppend record) s)).

(** [records = list(self.error_queue); self.error_queue.clear()]: a new
    list object, then the deque emptied in place. *)
Definition detach (t : tid) : M loc := fun s =>
  let records := fresh (dom (objs s)) in
  Done records
    (set_objs (<[error_queue s := []]> (<[records := queue s]> (objs s)))
       (log t (EvDetach records) s)).

Definition thread_start (t : tid) (th : thread) : M unit := fun s =>
  Done tt (add_thread th (log t (EvStart th) s)).

(** [thread.join(timeout=30)] returns when the thread has ended or the
    time is up; the handler's state is the same either way. *)
Definition thread_join (t : tid) (th : thread) : M unit := fun s =>
  Done tt (log t (EvJoin th) s).

(** [self.max_batch_size and len(self.error_queue) >= self.max_batch_size] *)
Definition reaches (limit : option Z) (len : nat) : bool :=
  match limit with
  | None => false
  | Some limit => negb (limit =? 0)%Z && (limit <=? Z.of_nat len)%Z
  end.

Definition limit_reached (s : state) : bool :=
  reaches (max_batch_size s) (length (queue s)).

(** Lines 120-130: the copy, the clear and the thread started on the copy. *)
Definition dispatch (t : tid) (wait : bool) : M thread :=
  records ← detach t;
  let thread := {| th_records := records; th_daemon := negb wait |} in
  thread_start t thread ;;
  mret thread.

(** Lines 110-134. *)
Definition _send_batch (t : tid) (wait : bool) : M unit :=
  with_lock t (
    q ← gets queue;
    match q with
    | [] => skip
    | _ =>
        thread ← dispatch t wait;
        if wait then thread_join t thread else skip
    end).

(** Lines 98-108. Nothing in the body raises in this model, so the
    [except Exception: self.handleError(record)] branch is not taken. *)
Definition emit (t : tid) (record : LogRecord) : M unit :=
  with_lock t (
    append t record ;;
    full ← gets limit_reached;
    if full : bool then _send_batch t false else skip).

(** [logging.Handler.close]: the handler leaves the logging module's
    list of handlers. *)
Definition super_close (t : tid) : M unit := fun s =>
  Done tt (set_closed (log t EvClose s)).

(** Lines 238-241. *)
Definition flush (t : tid) : M unit :=
  q ← gets queue;
  match q with
  | [] => skip
  | _ => _send_batch t true
  end.

(** Lines 243-246. *)
Definition close (t : tid) : M unit :=
  flush t ;; super_close t.

(** A sequence of calls made by one thread. *)
Inductive call : Type :=
| Emit (record : LogRecord)
| Flush
| Close
| SendBatch (wait : bool).

Definition exec (t : tid) (c : call) : M unit :=
  match c with
  | Emit record => emit t record
  | Flush => flush t
  | Close => close t
  | SendBatch wait => _send_batch t wait
  end.

Fixpoint run (t : tid) (cs : list call) : M unit :=
  match cs with
  | [] => skip
  | c :: rest => exec t c ;; run t rest
  end.

Definition final {A : Type} (r : result A) : state :=
  match r with
  | Done _ s => s
  | Blocked s => s
  end.

Definition returned {A : Type} (r : result A) : bool :=
  match r with
  | Done _ _ => true
  | Blocked _ => false
  end.

(** The store is well formed: the queue exists, and every started thread
    has a list of its own. *)
Definition wf (s : state) : Prop :=
  is_Some (objs s !! error_queue s) /\
  forall th, In th (threads s) ->
             th_records th <> error_queue s /\ is_Some (objs s !! th_records th).

(** The records appended so far, read off the trace. *)
Fixpoint emitted (tr : list (tid * event * option tid)) : list LogRecord :=
  match tr with
  | [] => []
  | (_, EvAppend record, _) :: rest => record :: emitted rest
  | _ :: rest => emitted rest
  end.

(** Every record appended is in one place, once: in a batch given to a
    sender thread or in the queue, in the order of arrival. *)
Definition conserved (s : state) : Prop :=
  (concat (batches s) ++ queue s)%list = emitted (trace s).

(** [s'] comes after [s]: the store is still well formed, the queue is
    the same object, the batches already given out are unchanged (new
    ones come after them), and no record is lost or doubled. *)
Definition follows (s s' : state) : Prop :=
  wf s' /\ error_queue s' = error_queue s
  /\ (exists more, batches s' = (batches s ++ more)%list)
  /\ (conserved s -> conserved s').

Definition is_wait (ev : event) : bool :=
  match ev with
  | EvJoin _ => true
  | _ => false
  end.

(** No step of the trace waits for a sender thread with the lock held. *)
Definition lock_free_while_waiting (tr : list (tid * event * option tid)) : Prop :=
  forall t ev holder, In (t, ev, holder) tr -> is_wait ev = true -> holder = None.

(** ** Example objects *)

Definition record (level msg : string) : LogRecord :=
  {| levelname := level; getMessage := msg; created := 0; pathname := "app.py";
     lineno := 1; funcName := "main"; exc_info := None |}.

Definition rec_a : LogRecord := record "ERROR" "a".
Definition rec_b : LogRecord := record "CRITICAL" "b".
Definition rec_c : LogRecord := record "ERROR" "c".

Definition example_config : config :=
  {| from_addr := "alerts@example.org"; to_addr := inl "ops@example.org";
     subject_prefix := "[ALERT]"; pwdfile := ".mailpwd";
     smtp_server := "smtp.example.org"; smtp_port := 587 |}.

(** A server that refuses the connection. *)
Definition refusing_env : env :=
  {| read_password := fun _ => inr "secret";
     smtp_session := fun _ _ _ _ _ =>
       Failed {| exc_str := "[Errno 111] Connection refused"; is_Exception := true |} |}.

Definition empty_world : world := {| outbox := []; stdout := []; stderr := [] |}.

(** ** Further notions for the properties *)

(** Some character of the text is one of the five. *)
Fixpoint has_special (text : string) : bool :=
  match text with
  | EmptyString => false
  | String c rest => is_special c || has_special rest
  end.

(** [sub] occurs in [text]. *)
Definition contains (sub text : string) : Prop :=
  exists pre post, text = pre ++ sub ++ post.

(** [max_batch_size] is falsy: [None] or [0]. *)
Definition unlimited (limit : option Z) : bool :=
  match limit with
  | None => true
  | Some limit => (limit =? 0)%Z
  end.

(** The calls of the handler's public interface: [_send_batch] is the
    private one. *)
Definition public (c : call) : bool :=
  match c with
  | SendBatch _ => false
  | _ => true
  end.

End Mail.

(* ===================================================================== *)
(** * posts.py: properties *)
(* ===================================================================== *)

Module PostsFacts.
Import Posts.

(** ** The unwrapping loop terminates *)

Lemma depth_dict (d : gmap string value) :
  depth (VDict d) = S (map_fold (fun _ x acc => Nat.max (depth x) acc) 0 d).
Proof. reflexivity. Qed.

Lemma depth_lookup (d : gmap string value) (k : string) (v : value) :
  d !! k = Some v -> depth v < depth (VDict d).
Proof.
  rewrite depth_dict. revert k v.
  apply (map_fold_weak_ind
           (fun (r : nat) (m : gmap string value) =>
              forall k v, m !! k = Some v -> depth v < S r)).
  - intros k v H. rewrite lookup_empty in H. discriminate.
  - intros i x m r Hi IH k v H.
    destruct (decide (i = k)) as [->|Hne].
    + rewrite lookup_insert_eq in H. injection H as ->. lia.
    + rewrite lookup_insert_ne in H by assumption.
      specialize (IH k v H). lia.
Qed.

Lemma unwrap_empty (n : nat) : unwrap (S n) (VDict ∅) = Returns (VDict ∅).
Proof. reflexivity. Qed.

Lemma unwrap_enough (fuel : nat) :
  forall v, depth v < fuel -> unwrap fuel v <> OutOfFuel.
Proof.
  induction fuel as [|n IH]; intros v Hd; [lia|].
  destruct v as [| | | | |d]; try discriminate.
  cbn [unwrap get mbind outcome_bind].
  destruct (eq_str (default VNone (d !! "__typename")) wrapper_typename);
    [|discriminate].
  destruct (d !! "tweet") as [inner|] eqn:Ht; cbn [default from_option id].
  - apply IH. apply depth_lookup in Ht. lia.
  - destruct n as [|n]; [rewrite depth_dict in Hd; lia|].
    rewrite unwrap_empty. discriminate.
Qed.

Lemma unwrap_more_fuel (fuel : nat) :
  forall v fuel', unwrap fuel v <> OutOfFuel -> fuel <= fuel' ->
                  unwrap fuel' v = unwrap fuel v.
Proof.
  induction fuel as [|n IH]; intros v fuel' Hne Hle; [done|].
  destruct fuel' as [|n']; [lia|].
  destruct v as [| | | | |d]; try reflexivity.
  cbn [unwrap get mbind outcome_bind] in *.
  destruct (eq_str (default VNone (d !! "__typename")) wrapper_typename);
    [|reflexivity].
  apply IH; [assumption|lia].
Qed.

Lemma unwrap_fuel_irrelevant (v : value) (f1 f2 : nat) :
  depth v < f1 -> depth v < f2 -> unwrap f1 v = unwrap f2 v.
Proof.
  intros H1 H2. destruct (Nat.le_ge_cases f1 f2).
  - symmetry. apply unwrap_more_fuel; [by apply unwrap_enough|done].
  - apply unwrap_more_fuel; [by apply unwrap_enough|done].
Qed.

Lemma unwrapped_not_dict (v : value) :
  is_dict v = false -> unwrapped v = Raises AttributeError.
Proof. by destruct v. Qed.

Lemma unwrapped_done (d : gmap string value) :
  eq_str (default VNone (d !! "__typename")) wrapper_typename = false ->
  unwrapped (VDict d) = Returns (VDict d).
Proof.
  intros H. unfold unwrapped. cbn [unwrap get mbind outcome_bind]. by rewrite H.
Qed.

Lemma unwrapped_step (d : gmap string value) :
  eq_str (default VNone (d !! "__typename")) wrapper_typename = true ->
  unwrapped (VDict d) = unwrapped (default (VDict ∅) (d !! "tweet")).
Proof.
  intros H. unfold unwrapped at 1. cbn [unwrap get mbind outcome_bind].
  rewrite H. destruct (d !! "tweet") as [inner|] eqn:Ht; cbn [default from_option id].
  - apply unwrap_fuel_irrelevant; [by eapply depth_lookup|lia].
  - rewrite depth_dict. reflexivity.
Qed.

Lemma unwrapped_total (v : value) : unwrapped v <> OutOfFuel.
Proof. apply unwrap_enough. lia. Qed.


(** ** What the walk does at a key *)

Lemma walk_present (d : gmap string value) (k : string) (v : value) (rest : list string) :
  d !! k = Some v -> walk (VDict d) (k :: rest) = walk v rest.
Proof. intros H. cbn [walk get mbind outcome_bind]. by rewrite H. Qed.

Lemma walk_missing (d : gmap string value) (k : string) (rest : list string) :
  d !! k = None -> walk (VDict d) (k :: rest) = walk (VDict ∅) rest.
Proof. intros H. cbn [walk get mbind outcome_bind]. by rewrite H. Qed.

Lemma walk_not_dict (v : value) (k : string) (rest : list string) :
  is_dict v = false -> walk v (k :: rest) = Raises AttributeError.
Proof. by destruct v. Qed.

Lemma walk_empty (path : list string) : walk (VDict ∅) path = Returns (VDict ∅).
Proof.
  induction path as [|k rest IH]; [reflexivity|].
  rewrite walk_missing by apply lookup_empty. exact IH.
Qed.

(** ** The envelope *)

Lemma wrapper_is_envelope (extra : gmap string value) (inner : value) :
  unwrapped (wrapper extra inner) = unwrapped inner.
Proof.
  unfold wrapper. rewrite unwrapped_step.
  - rewrite lookup_insert_ne by discriminate. by rewrite lookup_insert_eq.
  - by rewrite lookup_insert_eq.
Qed.

Lemma wrap_unwrapped (extras : list (gmap string value)) (inner : value) :
  unwrapped (wrap extras inner) = unwrapped inner.
Proof.
  induction extras as [|d extras IH]; [reflexivity|].
  cbn [wrap foldr]. rewrite wrapper_is_envelope. exact IH.
Qed.

Lemma well_wrapped_unwrapped (v : value) :
  well_wrapped v -> exists v', unwrapped v = Returns v'.
Proof.
  induction 1 as [d H|d H _ [v' IH]].
  - exists (VDict d). by apply unwrapped_done.
  - exists v'. by rewrite unwrapped_step.
Qed.

Lemma unwrap_well_wrapped (fuel : nat) :
  forall v v', unwrap fuel v = Returns v' -> well_wrapped v.
Proof.
  induction fuel as [|n IH]; intros v v' H; [discriminate|].
  destruct v as [| | | | |d]; try discriminate.
  cbn [unwrap get mbind outcome_bind] in H.
  destruct (eq_str (default VNone (d !! "__typename")) wrapper_typename) eqn:Ht.
  - apply ww_envelope; [assumption|]. by eapply IH.
  - by apply ww_plain.
Qed.

Lemma not_well_wrapped_raises (v : value) :
  ~ well_wrapped v -> unwrapped v = Raises AttributeError.
Proof.
  intros Hn. unfold unwrapped.
  assert (Hgen : forall fuel w, unwrap fuel w <> OutOfFuel -> ~ well_wrapped w ->
                                unwrap fuel w = Raises AttributeError).
  { induction fuel as [|n IH]; intros w Hf Hw; [done|].
    destruct w as [| | | | |d]; try reflexivity.
    cbn [unwrap get mbind outcome_bind] in *.
    destruct (eq_str (default VNone (d !! "__typename")) wrapper_typename) eqn:Ht.
    - apply IH; [assumption|]. intros Hin. apply Hw. by apply ww_envelope.
    - exfalso. apply Hw. by apply ww_plain. }
  apply Hgen; [apply unwrapped_total|assumption].
Qed.

(** [get_post_attr] for an attribute other than the type discriminator
    depends on the object only through what the loop leaves. *)
Lemma get_post_attr_unwrapped (p q : value) (attr : string)
    (tbl : gmap string (list string)) :
  attr <> "__typename" -> unwrapped p = unwrapped q ->
  get_post_attr p attr tbl = get_post_attr q attr tbl.
Proof.
  intros Hattr Hpq. unfold get_post_attr.
  apply String.eqb_neq in Hattr. rewrite Hattr. by rewrite Hpq.
Qed.

(** ** The specified properties *)

(** C1. Candidate paths that give different values make [get_post_attr]
    fail its assertion, and the code does so for ["text"] as for every
    other attribute: a post with both the note text and a different legacy
    text raises [AssertionError] where the docstring promises the note
    text. The same table under another attribute name behaves the same. *)
Theorem text_conflict_asserts :
  get_post_attr (long_post "a long text" "a long") "text" text_table
  = (Raises AssertionError, [])
  /\ get_post_attr (long_post "a long text" "a long") "body"
       {[ "body" := ["note_tweet.note_tweet_results.result.text"; "legacy.full_text"] ]}
     = (Raises AssertionError, [])
  /\ get_post_attr (long_post "same" "same") "text" text_table
     = (Returns (VStr "same"), []).
Proof. repeat split; vm_compute; reflexivity. Qed.

(** Two candidates that both resolve to hashable values which are not
    equal: the assertion fails whatever the attribute is called. *)
Lemma two_candidates_conflict (post : value) (attr p1 p2 : string) (v1 v2 : value) :
  attr <> "__typename" ->
  unwrapped post = Returns post ->
  walk post (split "." p1) = Returns v1 ->
  walk post (split "." p2) = Returns v2 ->
  hashable v1 = true -> hashable v2 = true -> py_eq v1 v2 = false ->
  get_post_attr post attr {[ attr := [p1; p2] ]} = (Raises AssertionError, []).
Proof.
  intros Hattr Hu H1 H2 Hh1 Hh2 Hne. unfold get_post_attr.
  apply String.eqb_neq in Hattr. rewrite Hattr, Hu, lookup_singleton_eq.
  unfold resolve. cbn [collect mbind outcome_bind]. rewrite H1.
  cbn [mbind outcome_bind]. rewrite H2.
  destruct v1; try discriminate; destruct v2; try discriminate;
    cbn [is_dict app py_set py_set_from hashable set_add mbind outcome_bind];
    rewrite Hne; reflexivity.
Qed.

(** C6. An attribute other than the type discriminator is resolved on
    what is inside the [TweetWithVisibilityResults] envelopes, however
    many there are; the wrapped ["hi"] post gives ["hi"], and the two-path
    table on a post with only [legacy.full_text] gives that text. *)
Theorem get_post_attr_unwraps (extras : list (gmap string value)) (inner : value)
    (attr : string) (tbl : gmap string (list string)) :
  attr <> "__typename" ->
  get_post_attr (wrap extras inner) attr tbl = get_post_attr inner attr tbl
  /\ get_post_attr (wrapper ∅ (legacy_post "hi")) "text" {[ "text" := ["legacy.full_text"] ]}
     = (Returns (VStr "hi"), [])
  /\ get_post_attr (legacy_post "hello") "text" text_table
     = (Returns (VStr "hello"), []).
Proof.
  intros Hattr. split; [|split; vm_compute; reflexivity].
  apply get_post_attr_unwrapped; [assumption|apply wrap_unwrapped].
Qed.

Lemma get_post_attr_unwraps_witness :
  "text" <> "__typename"
  /\ get_post_attr (wrap [∅; {[ "limitedActionResults" := VDict ∅ ]}] (legacy_post "hi"))
       "text" text_table
     = get_post_attr (legacy_post "hi") "text" text_table.
Proof.
  split; [discriminate|].
  apply (get_post_attr_unwraps [∅; {[ "limitedActionResults" := VDict ∅ ]}]
           (legacy_post "hi") "text" text_table).
  discriminate.
Defined.

(** C7, as the code has it. For an attribute other than ["__typename"]
    that the table does not list: when the loop gets through the
    envelopes, the call logs the warning and returns [None]; when it does
    not (an envelope whose ["tweet"] is not a dict), the call raises
    [AttributeError] before the table is looked at. *)
Theorem unknown_attr_returns_none (post : value) (attr : string)
    (tbl : gmap string (list string)) :
  attr <> "__typename" -> tbl !! attr = None ->
  (well_wrapped post ->
     get_post_attr post attr tbl = (Returns VNone, [unknown_attr_warning attr]))
  /\ (~ well_wrapped post ->
     get_post_attr post attr tbl = (Raises AttributeError, [])).
Proof.
  intros Hattr Htbl. apply String.eqb_neq in Hattr. unfold get_post_attr.
  rewrite Hattr. split; intros Hw.
  - destruct (well_wrapped_unwrapped _ Hw) as [v' ->]. by rewrite Htbl.
  - by rewrite not_well_wrapped_raises.
Qed.

Lemma unknown_attr_returns_none_witness :
  get_post_attr (wrapper ∅ (legacy_post "hi")) "lang" text_table
  = (Returns VNone, ["Unkown attr 'lang'; skipping extraction."]).
Proof.
  apply (unknown_attr_returns_none (wrapper ∅ (legacy_post "hi")) "lang" text_table).
  - discriminate.
  - reflexivity.
  - apply ww_envelope; [reflexivity|]. apply ww_plain. reflexivity.
Defined.

(** C7 as stated fails: asked for ["__typename"], which the table does not
    list, the call returns the discriminator and logs nothing; and on an
    envelope whose ["tweet"] is a number it raises. *)
Lemma unknown_attr_counterexample :
  let post := VDict {[ "__typename" := VStr "Tweet" ]} in
  let broken := VDict {[ "__typename" := VStr wrapper_typename; "tweet" := VInt 5 ]} in
  (∅ : gmap string (list string)) !! "__typename" = None
  /\ get_post_attr post "__typename" ∅ = (Returns (VStr "Tweet"), [])
  /\ get_post_attr broken "lang" ∅ = (Raises AttributeError, [])
  /\ ~ (forall (d : gmap string value) (attr : string) (tbl : gmap string (list string)),
          tbl !! attr = None ->
          get_post_attr (VDict d) attr tbl
          = (Returns VNone, [unknown_attr_warning attr])).
Proof.
  cbn zeta. split; [reflexivity|]. split; [vm_compute; reflexivity|].
  split; [vm_compute; reflexivity|].
  intros H. specialize (H {[ "__typename" := VStr "Tweet" ]} "__typename" ∅ eq_refl).
  vm_compute in H. discriminate.
Qed.

(** C9. With [post = {"a": 5}] and the candidate path ["a.b"] the call
    raises [AttributeError]; with the key missing it returns [None]. The
    empty-dict default stands in for a missing key only: a key that is
    present with a value that is not a dict stops the walk at the next
    step. *)
Theorem scalar_intermediate_raises :
  get_post_attr (VDict {[ "a" := VInt 5 ]}) "x" {[ "x" := ["a.b"] ]}
  = (Raises AttributeError, [])
  /\ get_post_attr (VDict ∅) "x" {[ "x" := ["a.b"] ]} = (Returns VNone, [])
  /\ (forall (d : gmap string value) (k part : string) (rest : list string) (v : value),
        walk (VDict (<[k := v]> d)) (k :: part :: rest)
        = if is_dict v then walk v (part :: rest) else Raises AttributeError)
  /\ (forall (d : gmap string value) (k : string) (rest : list string),
        walk (VDict (delete k d)) (k :: rest) = Returns (VDict ∅)).
Proof.
  split; [vm_compute; reflexivity|]. split; [vm_compute; reflexivity|]. split.
  - intros d k part rest v. rewrite (walk_present _ k v) by apply lookup_insert_eq.
    destruct (is_dict v) eqn:Hv; [reflexivity|]. by apply walk_not_dict.
  - intros d k rest. rewrite walk_missing by apply lookup_delete_eq.
    apply walk_empty.
Qed.

(** C10. Asked for ["__typename"], the call returns the outermost object's
    own entry ([None] when it has none) without unwrapping, without the
    table and without a warning: on an envelope the answer is
    ["TweetWithVisibilityResults"], not the inner post's discriminator. *)
Theorem typename_returned_directly (d : gmap string value)
    (inner : value) (tbl : gmap string (list string)) :
  get_post_attr (VDict d) "__typename" tbl
  = (Returns (default VNone (d !! "__typename")), [])
  /\ get_post_attr (wrapper d inner) "__typename" tbl
     = (Returns (VStr wrapper_typename), [])
  /\ get_post_attr (wrapper ∅ (VDict {[ "__typename" := VStr "Tweet" ]})) "__typename" ∅
     = (Returns (VStr "TweetWithVisibilityResults"), []).
Proof.
  split; [reflexivity|]. split; [|vm_compute; reflexivity].
  unfold wrapper, get_post_attr. cbn [String.eqb Ascii.eqb Bool.eqb get].
  by rewrite lookup_insert_eq.
Qed.

(** [get_post_attr] always comes back: the loop never runs out of steps. *)
Lemma get_post_attr_total (post : value) (attr : string)
    (tbl : gmap string (list string)) :
  (get_post_attr post attr tbl).1 <> OutOfFuel.
Proof.
  unfold get_post_attr. destruct (String.eqb attr "__typename").
  - destruct post; discriminate.
  - pose proof (unwrapped_total post) as Ht.
    destruct (unwrapped post) as [q|ex|]; [|discriminate|done].
    destruct (tbl !! attr) as [paths|]; [|discriminate]. cbn [fst].
    unfold resolve.
    assert (Hc : forall ps vs, collect q ps vs <> OutOfFuel).
    { induction ps as [|p ps IH]; intros vs; [discriminate|].
      cbn [collect mbind outcome_bind].
      assert (Hw : forall path c, walk c path <> OutOfFuel).
      { induction path as [|k path IHp]; intros c; [discriminate|].
        destruct c; try discriminate. cbn [walk get mbind outcome_bind]. apply IHp. }
      specialize (Hw (split "." p) q).
      destruct (walk q (split "." p)); [apply IH|discriminate|done]. }
    specialize (Hc paths []).
    destruct (collect q paths []) as [vs|ex|]; [|discriminate|done].
    cbn [mbind outcome_bind]. destruct vs as [|v vs]; [discriminate|].
    assert (Hs : forall l acc, py_set_from l acc <> OutOfFuel).
    { induction l as [|x l IHl]; intros acc; [discriminate|].
      cbn [py_set_from]. destruct (hashable x); [apply IHl|discriminate]. }
    specialize (Hs (v :: vs) []). unfold py_set.
    destruct (py_set_from (v :: vs) []); [|discriminate|done].
    cbn [mbind outcome_bind]. destruct (Nat.eqb _ _); discriminate.
Qed.

End PostsFacts.

(* ===================================================================== *)
(** * mail.py: properties *)
(* ===================================================================== *)

Module MailFacts.
Import Mail.

(** ** [_escape_html] *)

#[local] Arguments String.append !_ _ / : simpl nomatch.

Lemma occurs_app (c : ascii) (a b : string) :
  occurs c (a ++ b) = occurs c a || occurs c b.
Proof.
  induction a as [|x a IH]; cbn [String.append occurs]; [reflexivity|].
  rewrite IH. by rewrite orb_assoc.
Qed.

Ltac case_char c ch :=
  let E := fresh "E" in
  destruct (Ascii.eqb c ch) eqn:E;
  [apply Ascii.eqb_eq in E; subst c|].

(** The five replacements, one after the other, act on each character on
    its own: the ampersand goes first, so the ampersands the later
    replacements bring in are not escaped again. *)
Lemma escape_html_cons (c : ascii) (rest : string) :
  _escape_html (String c rest) = escape_char c ++ _escape_html rest.
Proof.
  unfold _escape_html, escape_char.
  case_char c "&"%char; [reflexivity|].
  case_char c "<"%char; [reflexivity|].
  case_char c ">"%char; [reflexivity|].
  case_char c dquote; [reflexivity|].
  case_char c "'"%char; [reflexivity|].
  cbn [replace]. rewrite E. cbn [replace]. rewrite E0. cbn [replace]. rewrite E1.
  cbn [replace]. rewrite E2. cbn [replace]. rewrite E3. reflexivity.
Qed.

Lemma escape_html_chars (text : string) : _escape_html text = escape_chars text.
Proof.
  induction text as [|c rest IH]; [reflexivity|].
  rewrite escape_html_cons. cbn [escape_chars]. by rewrite IH.
Qed.

Lemma escape_char_cases (c : ascii) :
  is_special c = true \/ escape_char c = String c EmptyString.
Proof.
  unfold is_special, escape_char.
  destruct (Ascii.eqb c "&"); [by left|].
  destruct (Ascii.eqb c "<"); [by left|].
  destruct (Ascii.eqb c ">"); [by left|].
  destruct (Ascii.eqb c dquote); [by left|].
  destruct (Ascii.eqb c "'"); [by left|by right].
Qed.

Lemma prefix_nil (text : string) : String.prefix "" text = true.
Proof. by destruct text. Qed.

Lemma unescape_escape_from (text : string) :
  unescape_from 0 (escape_chars text) = text.
Proof.
  induction text as [|c rest IH]; [reflexivity|].
  cbn [escape_chars]. unfold escape_char.
  case_char c "&"%char; [cbn; by rewrite prefix_nil, IH|].
  case_char c "<"%char; [cbn; by rewrite prefix_nil, IH|].
  case_char c ">"%char; [cbn; by rewrite prefix_nil, IH|].
  case_char c dquote; [cbn; by rewrite prefix_nil, IH|].
  case_char c "'"%char; [cbn; by rewrite prefix_nil, IH|].
  cbn [String.append unescape_from String.prefix].
  destruct (ascii_dec "&" c) as [<-|_]; [discriminate|].
  by rewrite IH.
Qed.

Lemma unescape_escape (text : string) : unescape_html (_escape_html text) = text.
Proof. unfold unescape_html. rewrite escape_html_chars. apply unescape_escape_from. Qed.

Lemma escape_html_injective (a b : string) :
  _escape_html a = _escape_html b -> a = b.
Proof.
  intros H. rewrite <- (unescape_escape a), <- (unescape_escape b). by rewrite H.
Qed.

Lemma occurs_escape_char (c x : ascii) :
  is_special c = true -> c <> "&"%char -> occurs c (escape_char x) = false.
Proof.
  intros Hc Hamp. unfold is_special in Hc.
  repeat rewrite orb_true_iff in Hc. rewrite !Ascii.eqb_eq in Hc.
  destruct Hc as [[[[->| ->]| ->]| ->]| ->]; [done|..];
    unfold escape_char;
    (destruct (Ascii.eqb x "&") eqn:E1; [reflexivity|]);
    (destruct (Ascii.eqb x "<") eqn:E2; [reflexivity|]);
    (destruct (Ascii.eqb x ">") eqn:E3; [reflexivity|]);
    (destruct (Ascii.eqb x dquote) eqn:E4; [reflexivity|]);
    (destruct (Ascii.eqb x "'") eqn:E5; [reflexivity|]);
    cbn [occurs]; rewrite ?E2, ?E3, ?E4, ?E5; reflexivity.
Qed.

Lemma escape_no_markup (c : ascii) (text : string) :
  is_special c = true -> c <> "&"%char -> occurs c (_escape_html text) = false.
Proof.
  intros Hc Hamp. rewrite escape_html_chars.
  induction text as [|x rest IH]; [reflexivity|].
  cbn [escape_chars]. rewrite occurs_app, IH, orb_false_r.
  by apply occurs_escape_char.
Qed.

(** C5. [_escape_html] maps the five characters to their entities and
    every other character to itself, on every string; unescaping undoes
    it, so it is injective; and the escaped text has no angle bracket (nor
    quote), so the trace placed in the stack-trace block brings no markup
    of its own, as for a trace with [<script>] in it. *)
Theorem escape_html_correct (text : string) :
  _escape_html text = escape_chars text
  /\ (escape_char "&" = "&amp;" /\ escape_char "<" = "&lt;" /\ escape_char ">" = "&gt;"
      /\ escape_char dquote = "&quot;" /\ escape_char "'" = "&#39;")
  /\ (forall c, is_special c = true \/ escape_char c = String c EmptyString)
  /\ unescape_html (_escape_html text) = text
  /\ (forall text', _escape_html text = _escape_html text' -> text = text')
  /\ (occurs "<" (_escape_html text) = false /\ occurs ">" (_escape_html text) = false
      /\ occurs dquote (_escape_html text) = false /\ occurs "'" (_escape_html text) = false)
  /\ stacktrace_block text = stacktrace_open ++ _escape_html text ++ stacktrace_close
  /\ _escape_html "Traceback: <script>alert('x')</script>"
     = "Traceback: &lt;script&gt;alert(&#39;x&#39;)&lt;/script&gt;".
Proof.
  split; [apply escape_html_chars|]. split; [repeat split|].
  split; [apply escape_char_cases|]. split; [apply unescape_escape|].
  split; [intros text'; apply escape_html_injective|].
  split; [|split; reflexivity].
  repeat split; by apply escape_no_markup.
Qed.


(** ** The handler: what each call does to the state *)

Lemma emitted_app (tr1 tr2 : list (tid * event * option tid)) :
  emitted (tr1 ++ tr2) = (emitted tr1 ++ emitted tr2)%list.
Proof.
  induction tr1 as [|[[t ev] h] tr1 IH]; [reflexivity|].
  destruct ev; cbn [emitted app]; by rewrite ?IH.
Qed.

Lemma blocked_when_held (t holder : tid) (s : state) :
  batch_lock s = Some holder -> acquire t s = Blocked s.
Proof. intros H. unfold acquire. by rewrite H. Qed.

Ltac unfold_state :=
  unfold set_objs, log, set_lock, add_thread, set_closed;
  cbn [max_batch_size objs error_queue batch_lock threads closed trace].

Lemma queue_log (t : tid) (ev : event) (s : state) : queue (log t ev s) = queue s.
Proof. reflexivity. Qed.

Lemma queue_set_lock (o : option tid) (s : state) : queue (set_lock o s) = queue s.
Proof. reflexivity. Qed.

Lemma queue_set_objs (l : loc) (q : list LogRecord)
    (m : gmap loc (list LogRecord)) (s : state) :
  error_queue s = l -> queue (set_objs (<[l := q]> m) s) = q.
Proof.
  intros <-. unfold queue, read. cbn [objs error_queue set_objs].
  by rewrite lookup_insert_eq.
Qed.

Lemma queue_set_objs' (l : loc) (q : list LogRecord)
    (m : gmap loc (list LogRecord)) (mx : option Z) (o : option tid)
    (ths : list thread) (cl : bool) (tr : list (tid * event * option tid)) :
  queue {| max_batch_size := mx; objs := <[l := q]> m; error_queue := l;
           batch_lock := o; threads := ths; closed := cl; trace := tr |} = q.
Proof. unfold queue, read. cbn [objs error_queue]. by rewrite lookup_insert_eq. Qed.

(** [emit] with the lock free: the record is appended; below the limit
    the lock is released, at the limit the call goes into [_send_batch]
    and stops at its [acquire], the lock still held by the caller. *)
Lemma emit_free (t : tid) (r : LogRecord) (s : state) :
  batch_lock s = None ->
  emit t r s =
    let s1 := {| max_batch_size := max_batch_size s;
                 objs := <[error_queue s := (queue s ++ [r])%list]> (objs s);
                 error_queue := error_queue s;
                 batch_lock := Some t;
                 threads := threads s;
                 closed := closed s;
                 trace := (trace s ++ [(t, EvAcquire, None); (t, EvAppend r, Some t)])%list |} in
    if reaches (max_batch_size s) (S (length (queue s)))
    then Blocked s1
    else Done tt
           {| max_batch_size := max_batch_size s;
              objs := <[error_queue s := (queue s ++ [r])%list]> (objs s);
              error_queue := error_queue s;
              batch_lock := None;
              threads := threads s;
              closed := closed s;
              trace := (trace s ++ [(t, EvAcquire, None); (t, EvAppend r, Some t);
                                    (t, EvRelease, Some t)])%list |}.
Proof.
  intros Hfree. cbn zeta.
  unfold emit, with_lock, acquire, mbind, M_bind. rewrite Hfree.
  cbn -[queue]. rewrite !queue_set_lock, !queue_log.
  unfold limit_reached. rewrite queue_set_objs by reflexivity.
  cbn [max_batch_size set_objs log set_lock].
  rewrite length_app, Nat.add_1_r.
  destruct (reaches (max_batch_size s) (S (length (queue s)))).
  - unfold _send_batch, with_lock, acquire, mbind, M_bind.
    cbn. unfold_state. rewrite Hfree, <- !app_assoc. reflexivity.
  - cbn. unfold_state. rewrite Hfree, <- !app_assoc. reflexivity.
Qed.

Lemma emit_held (t holder : tid) (r : LogRecord) (s : state) :
  batch_lock s = Some holder -> emit t r s = Blocked s.
Proof.
  intros H. unfold emit, with_lock, mbind, M_bind. by rewrite (blocked_when_held _ holder).
Qed.

(** [_send_batch] with the lock free. *)
Lemma send_batch_free (t : tid) (wait : bool) (s : state) :
  batch_lock s = None ->
  _send_batch t wait s =
    match queue s with
    | [] =>
        Done tt
          {| max_batch_size := max_batch_size s; objs := objs s;
             error_queue := error_queue s; batch_lock := None;
             threads := threads s; closed := closed s;
             trace := (trace s ++ [(t, EvAcquire, None); (t, EvRelease, Some t)])%list |}
    | q =>
        let records := fresh (dom (objs s)) in
        let thread := {| th_records := records; th_daemon := negb wait |} in
        Done tt
          {| max_batch_size := max_batch_size s;
             objs := <[error_queue s := []]> (<[records := q]> (objs s));
             error_queue := error_queue s; batch_lock := None;
             threads := (threads s ++ [thread])%list; closed := closed s;
             trace := (trace s ++
                         [(t, EvAcquire, None); (t, EvDetach records, Some t);
                          (t, EvStart thread, Some t)] ++
                         (if wait then [(t, EvJoin thread, Some t)] else []) ++
                         [(t, EvRelease, Some t)])%list |}
    end.
Proof.
  intros Hfree. destruct s as [mx ob eq lk ths cl tr].
  cbn [batch_lock] in Hfree. subst lk.
  unfold queue, read.
  lazy beta iota zeta delta
    [_send_batch with_lock acquire release gets skip dispatch detach thread_start
     thread_join mbind M_bind mret M_ret queue read
     set_objs log set_lock add_thread
     max_batch_size objs error_queue batch_lock threads closed trace].
  destruct (default [] (ob !! eq)) as [|r q] eqn:Hq; [|destruct wait];
    rewrite <- ?app_assoc, ?Hq; reflexivity.
Qed.

Lemma send_batch_held (t holder : tid) (wait : bool) (s : state) :
  batch_lock s = Some holder -> _send_batch t wait s = Blocked s.
Proof.
  intros H. unfold _send_batch, with_lock, mbind, M_bind.
  by rewrite (blocked_when_held _ holder).
Qed.

Lemma flush_empty (t : tid) (s : state) : queue s = [] -> flush t s = Done tt s.
Proof. intros H. unfold flush, gets, mbind, M_bind. by rewrite H. Qed.

Lemma flush_nonempty (t : tid) (s : state) :
  queue s <> [] -> flush t s = _send_batch t true s.
Proof.
  intros H. unfold flush, gets, mbind, M_bind. by destruct (queue s).
Qed.


(** ** The store: what the queue and the batches hold after a step *)

Lemma wf_init (limit : option Z) : wf (init limit).
Proof. split; [by eexists|]. intros th []. Qed.

Lemma conserved_init (limit : option Z) : conserved (init limit).
Proof. reflexivity. Qed.

Lemma batches_eq (s s' : state) :
  threads s' = threads s ->
  (forall th, In th (threads s) -> objs s' !! th_records th = objs s !! th_records th) ->
  batches s' = batches s.
Proof.
  intros Ht Ho. unfold batches. rewrite Ht. apply map_ext_in.
  intros th Hin. unfold read. by rewrite Ho.
Qed.

(** A step that leaves the store and the threads alone. *)
Lemma step_idle (s s' : state) :
  wf s -> objs s' = objs s -> error_queue s' = error_queue s ->
  threads s' = threads s -> emitted (trace s') = emitted (trace s) ->
  wf s' /\ queue s' = queue s /\ batches s' = batches s
  /\ (conserved s -> conserved s').
Proof.
  intros [Hq Hth] Ho He Ht Htr.
  assert (Hb : batches s' = batches s).
  { apply batches_eq; [assumption|]. intros th _. by rewrite Ho. }
  assert (Hqq : queue s' = queue s) by (unfold queue, read; by rewrite Ho, He).
  repeat split; try assumption.
  - by rewrite Ho, He.
  - rewrite Ht in H. rewrite He. by apply Hth.
  - rewrite Ht in H. rewrite Ho. by apply Hth.
  - unfold conserved. by rewrite Hb, Hqq, Htr.
Qed.

(** The step of [append]. *)
Lemma step_append (r : LogRecord) (s s' : state) :
  wf s -> objs s' = <[error_queue s := (queue s ++ [r])%list]> (objs s) ->
  error_queue s' = error_queue s -> threads s' = threads s ->
  emitted (trace s') = (emitted (trace s) ++ [r])%list ->
  wf s' /\ queue s' = (queue s ++ [r])%list /\ batches s' = batches s
  /\ (conserved s -> conserved s').
Proof.
  intros [Hq Hth] Ho He Ht Htr.
  assert (Hb : batches s' = batches s).
  { apply batches_eq; [assumption|]. intros th Hin. rewrite Ho.
    apply lookup_insert_ne. intros Heq. by destruct (Hth th Hin). }
  assert (Hqq : queue s' = (queue s ++ [r])%list).
  { unfold queue at 1, read. by rewrite Ho, He, lookup_insert_eq. }
  repeat split; try assumption.
  - rewrite Ho, He, lookup_insert_eq. by eexists.
  - rewrite Ht in H. rewrite He. by apply Hth.
  - rewrite Ht in H. rewrite Ho. destruct (Hth th H) as [Hne Hsome].
    by rewrite lookup_insert_ne.
  - unfold conserved. intros Hc. by rewrite Hb, Hqq, Htr, app_assoc, Hc.
Qed.

(** The step of [dispatch]: the copy is a new object, so the batch of the
    new thread is what the queue held, and the batches of the threads
    started before are what they were. *)
Lemma step_dispatch (daemon : bool) (s s' : state) :
  let records := fresh (dom (objs s)) in
  wf s ->
  objs s' = <[error_queue s := []]> (<[records := queue s]> (objs s)) ->
  error_queue s' = error_queue s ->
  threads s' = (threads s ++ [{| th_records := records; th_daemon := daemon |}])%list ->
  emitted (trace s') = emitted (trace s) ->
  wf s' /\ queue s' = [] /\ batches s' = (batches s ++ [queue s])%list
  /\ (conserved s -> conserved s').
Proof.
  intros records [Hq Hth] Ho He Ht Htr.
  assert (Hfresh : objs s !! records = None).
  { apply not_elem_of_dom. apply is_fresh. }
  assert (Hne : records <> error_queue s).
  { intros Heq. rewrite Heq in Hfresh. rewrite Hfresh in Hq. by destruct Hq. }
  assert (Hold : forall th, In th (threads s) ->
                   th_records th <> error_queue s /\ th_records th <> records
                   /\ objs s' !! th_records th = objs s !! th_records th).
  { intros th Hin. destruct (Hth th Hin) as [H1 H2].
    assert (th_records th <> records).
    { intros Heq. rewrite Heq, Hfresh in H2. by destruct H2. }
    repeat split; try assumption.
    rewrite Ho. rewrite lookup_insert_ne by congruence.
    by rewrite lookup_insert_ne by congruence. }
  assert (Hnew : objs s' !! records = Some (queue s)).
  { rewrite Ho. rewrite lookup_insert_ne by congruence. apply lookup_insert_eq. }
  assert (Hb : batches s' = (batches s ++ [queue s])%list).
  { unfold batches. rewrite Ht, map_app. f_equal.
    - apply map_ext_in. intros th Hin. unfold read.
      destruct (Hold th Hin) as (_ & _ & ->). reflexivity.
    - cbn [map th_records]. unfold read at 1. by rewrite Hnew. }
  assert (Hqq : queue s' = []).
  { unfold queue, read. by rewrite Ho, He, lookup_insert_eq. }
  repeat split; try assumption.
  - rewrite Ho, He, lookup_insert_eq. by eexists.
  - rewrite Ht in H. rewrite He. apply in_app_or in H as [H|[<-|[]]].
    + by apply Hold.
    + exact Hne.
  - rewrite Ht in H. apply in_app_or in H as [H|[<-|[]]].
    + destruct (Hold th H) as (_ & _ & ->). by apply Hth.
    + cbn [th_records]. by rewrite Hnew.
  - unfold conserved. intros Hc.
    rewrite Hb, Hqq, Htr, concat_app, app_nil_r. cbn [concat].
    by rewrite app_nil_r.
Qed.


(** ** Every call keeps the store in order *)

Lemma follows_refl (s : state) : wf s -> follows s s.
Proof.
  intros Hwf. repeat split; try apply Hwf; try done.
  exists []. by rewrite app_nil_r.
Qed.

Lemma follows_trans (s1 s2 s3 : state) :
  follows s1 s2 -> follows s2 s3 -> follows s1 s3.
Proof.
  intros (_ & He1 & [m1 Hb1] & Hc1) (Hwf & He2 & [m2 Hb2] & Hc2).
  split; [assumption|]. split; [congruence|]. split; [|tauto].
  exists (m1 ++ m2)%list. by rewrite Hb2, Hb1, app_assoc.
Qed.

Lemma follows_idle (s s' : state) :
  wf s -> objs s' = objs s -> error_queue s' = error_queue s ->
  threads s' = threads s -> emitted (trace s') = emitted (trace s) ->
  follows s s'.
Proof.
  intros Hwf Ho He Ht Htr.
  destruct (step_idle s s' Hwf Ho He Ht Htr) as (H1 & _ & H3 & H4).
  repeat split; try apply H1; try assumption.
  exists []. by rewrite app_nil_r.
Qed.

Lemma follows_append (r : LogRecord) (s s' : state) :
  wf s -> objs s' = <[error_queue s := (queue s ++ [r])%list]> (objs s) ->
  error_queue s' = error_queue s -> threads s' = threads s ->
  emitted (trace s') = (emitted (trace s) ++ [r])%list ->
  follows s s'.
Proof.
  intros Hwf Ho He Ht Htr.
  destruct (step_append r s s' Hwf Ho He Ht Htr) as (H1 & _ & H3 & H4).
  repeat split; try apply H1; try assumption.
  exists []. by rewrite app_nil_r.
Qed.

Lemma follows_dispatch (daemon : bool) (s s' : state) :
  wf s ->
  objs s' = <[error_queue s := []]> (<[fresh (dom (objs s)) := queue s]> (objs s)) ->
  error_queue s' = error_queue s ->
  threads s' = (threads s ++ [{| th_records := fresh (dom (objs s));
                                 th_daemon := daemon |}])%list ->
  emitted (trace s') = emitted (trace s) ->
  follows s s'.
Proof.
  intros Hwf Ho He Ht Htr.
  destruct (step_dispatch daemon s s' Hwf Ho He Ht Htr) as (H1 & _ & H3 & H4).
  repeat split; try apply H1; try assumption.
  by exists [queue s].
Qed.

Lemma emit_follows (t : tid) (r : LogRecord) (s : state) :
  wf s -> follows s (final (emit t r s)).
Proof.
  intros Hwf. destruct (batch_lock s) as [holder|] eqn:Hl.
  - rewrite (emit_held _ holder) by assumption. by apply follows_refl.
  - rewrite emit_free by assumption. cbn zeta.
    destruct (reaches _ _); cbn [final];
      (apply (follows_append r); [assumption|reflexivity..|]);
      cbn [trace]; rewrite emitted_app; reflexivity.
Qed.

Lemma send_batch_follows (t : tid) (wait : bool) (s : state) :
  wf s -> follows s (final (_send_batch t wait s)).
Proof.
  intros Hwf. destruct (batch_lock s) as [holder|] eqn:Hl.
  - rewrite (send_batch_held _ holder) by assumption. by apply follows_refl.
  - rewrite send_batch_free by assumption.
    destruct (queue s) as [|r q] eqn:Hq; cbn [final].
    + apply follows_idle; [assumption|reflexivity..|].
      cbn [trace]. rewrite emitted_app. cbn. by rewrite app_nil_r.
    + apply (follows_dispatch (negb wait)); [assumption| |reflexivity..|].
      * cbn [objs]. by rewrite Hq.
      * cbn [trace]. rewrite emitted_app. destruct wait; cbn; by rewrite app_nil_r.
Qed.

Lemma flush_follows (t : tid) (s : state) : wf s -> follows s (final (flush t s)).
Proof.
  intros Hwf. destruct (queue s) as [|r q] eqn:Hq.
  - rewrite flush_empty by assumption. by apply follows_refl.
  - rewrite flush_nonempty by (rewrite Hq; discriminate).
    by apply send_batch_follows.
Qed.

Lemma close_follows (t : tid) (s : state) : wf s -> follows s (final (close t s)).
Proof.
  intros Hwf. pose proof (flush_follows t s Hwf) as Hf.
  unfold close, mbind, M_bind. destruct (flush t s) as [[] s1|s1]; cbn [final] in *.
  - eapply follows_trans; [exact Hf|].
    apply follows_idle; [apply Hf|reflexivity..|].
    unfold super_close. cbn [final trace set_closed log].
    rewrite emitted_app. cbn. by rewrite app_nil_r.
  - exact Hf.
Qed.

Lemma exec_follows (t : tid) (c : call) (s : state) :
  wf s -> follows s (final (exec t c s)).
Proof.
  destruct c; cbn [exec];
    auto using emit_follows, flush_follows, close_follows, send_batch_follows.
Qed.

Lemma run_follows (t : tid) (cs : list call) :
  forall s, wf s -> follows s (final (run t cs s)).
Proof.
  induction cs as [|c cs IH]; intros s Hwf; [by apply follows_refl|].
  cbn [run]. unfold mbind, M_bind.
  pose proof (exec_follows t c s Hwf) as Hc.
  destruct (exec t c s) as [[] s1|s1]; cbn [final] in *; [|exact Hc].
  eapply follows_trans; [exact Hc|]. apply IH. apply Hc.
Qed.


(** From a new handler, whatever is called: every record appended is in
    one batch or in the queue, once. *)
Lemma run_conserved (limit : option Z) (t : tid) (cs : list call) :
  wf (final (run t cs (init limit))) /\ conserved (final (run t cs (init limit))).
Proof.
  destruct (run_follows t cs (init limit) (wf_init limit)) as (Hwf & _ & _ & Hc).
  split; [exact Hwf|]. apply Hc, conserved_init.
Qed.

(** ** Emitting with and without a size limit *)

(** No limit: every [emit] returns, the queue grows, no thread starts. *)
Lemma emits_without_limit (t : tid) (rs : list LogRecord) :
  forall s, wf s -> batch_lock s = None -> max_batch_size s = None ->
    exists s', run t (map Emit rs) s = Done tt s'
               /\ queue s' = (queue s ++ rs)%list /\ threads s' = threads s
               /\ batch_lock s' = None /\ max_batch_size s' = None /\ wf s'.
Proof.
  induction rs as [|r rs IH]; intros s Hwf Hl Hm.
  - exists s. by rewrite app_nil_r.
  - cbn [map run exec]. unfold mbind, M_bind.
    pose proof (emit_follows t r s Hwf) as Hf.
    rewrite emit_free in * by assumption. cbn zeta in *.
    rewrite Hm in *. cbn [reaches final] in *.
    match goal with |- context [run t (map Emit rs) ?s1] =>
      destruct (IH s1) as (s' & Hrun & Hq & Ht & Hl' & Hm' & Hwf');
        [apply Hf|reflexivity|reflexivity|]
    end.
    exists s'. split; [exact Hrun|]. split; [|done].
    rewrite Hq. rewrite queue_set_objs' by reflexivity.
    by rewrite <- app_assoc.
Qed.

(** A limit [0 < limit]: the [emit] that fills the queue never returns.
    It has appended its record, holds the lock, and waits for the lock
    in [_send_batch]; no thread has been started. *)
Lemma emits_reaching_limit (t : tid) (limit : Z) (rs : list LogRecord) :
  forall s, wf s -> batch_lock s = None -> max_batch_size s = Some limit ->
    (Z.of_nat (length (queue s)) < limit)%Z ->
    (limit <= Z.of_nat (length (queue s) + length rs))%Z ->
    exists s', run t (map Emit rs) s = Blocked s'
               /\ queue s'
                  = (queue s ++ take (Z.to_nat limit - length (queue s)) rs)%list
               /\ threads s' = threads s /\ batch_lock s' = Some t.
Proof.
  induction rs as [|r rs IH]; intros s Hwf Hl Hm Hlt Hle.
  - cbn [length] in Hle. lia.
  - cbn [map run exec]. unfold mbind, M_bind.
    pose proof (emit_follows t r s Hwf) as Hf.
    rewrite emit_free in * by assumption. cbn zeta in *.
    rewrite Hm in *. unfold reaches in *.
    assert (Hnz : (limit =? 0)%Z = false) by lia. rewrite Hnz in *.
    cbn [negb andb] in *.
    destruct (limit <=? Z.of_nat (S (length (queue s))))%Z eqn:Hfull;
      cbn [final] in *.
    + apply Z.leb_le in Hfull. eexists. split; [reflexivity|].
      rewrite queue_set_objs' by reflexivity. cbn [threads batch_lock].
      repeat split.
      replace (Z.to_nat limit - length (queue s)) with 1 by lia.
      reflexivity.
    + apply Z.leb_gt in Hfull.
      match goal with |- context [run t (map Emit rs) ?s1] =>
        destruct (IH s1) as (s' & Hrun & Hq & Ht & Hl');
          [apply Hf|reflexivity|reflexivity| | |]
      end.
      * rewrite queue_set_objs' by reflexivity. rewrite length_app. cbn [length]. lia.
      * rewrite queue_set_objs' by reflexivity. rewrite length_app.
        cbn [length] in *. lia.
      * exists s'. split; [exact Hrun|]. split; [|done].
        rewrite Hq. rewrite queue_set_objs' by reflexivity.
        rewrite length_app, <- app_assoc. cbn [length app].
        replace (Z.to_nat limit - length (queue s))
          with (S (Z.to_nat limit - (length (queue s) + 1))) by lia.
        reflexivity.
Qed.

(** Once a thread waits for the lock it holds itself, nothing in the
    handler releases it: with records queued, every later call, by any
    thread, stops at [acquire]. *)
Lemma wedged (holder t : tid) (c : call) (s : state) :
  batch_lock s = Some holder -> queue s <> [] -> exec t c s = Blocked s.
Proof.
  intros Hl Hq. destruct c as [r| | |wait]; cbn [exec].
  - by apply (emit_held _ holder).
  - rewrite flush_nonempty by assumption. by apply (send_batch_held _ holder).
  - unfold close, mbind, M_bind. rewrite flush_nonempty by assumption.
    by rewrite (send_batch_held _ holder).
  - by apply (send_batch_held _ holder).
Qed.

(** C2. Without a limit no [emit] sends anything, as specified. With
    [max_batch_size = 2] the second [emit] is specified to return with one
    batch of two handed to a sender thread. In the code the
    second [emit] calls [_send_batch] inside its own [with
    self.batch_lock], and [_send_batch] waits for that lock: the call does
    not return, no thread is started, both records stay queued and the
    lock stays taken, so that every later call stops as well. *)
Theorem emit_at_limit_never_returns :
  let unlimited := run 1 [Emit rec_a; Emit rec_b] (init None) in
  let limited := run 1 [Emit rec_a; Emit rec_b] (init (Some 2%Z)) in
  (returned unlimited = true /\ threads (final unlimited) = []
   /\ queue (final unlimited) = [rec_a; rec_b])
  /\ (returned limited = false /\ threads (final limited) = []
      /\ batches (final limited) = []
      /\ queue (final limited) = [rec_a; rec_b]
      /\ batch_lock (final limited) = Some 1)
  /\ (forall t c, exec t c (final limited) = Blocked (final limited)).
Proof.
  cbn zeta. split; [repeat split; vm_compute; reflexivity|].
  split; [repeat split; vm_compute; reflexivity|].
  intros t c. apply (wedged 1); [vm_compute; reflexivity|].
  vm_compute. discriminate.
Qed.


(** ** Flushing *)

(** C4. With the lock free, [flush] returns; the queue is then empty and
    the records it held have gone, as one batch, to the sender thread just
    started, after the batches given out before. The batch is a copy: the
    next [emit] puts its record in the queue, which then holds just that
    record, and no later call, whatever it is, changes a batch already
    given out. Every record appended is in exactly one batch or still in
    the queue. *)
Theorem flush_detaches (t : tid) (s : state) :
  wf s -> batch_lock s = None ->
  exists s',
    flush t s = Done tt s'
    /\ queue s' = []
    /\ batches s' = (batches s ++ match queue s with [] => [] | _ => [queue s] end)%list
    /\ batch_lock s' = None /\ wf s'
    /\ (forall t' r,
          queue (final (emit t' r s')) = [r]
          /\ batches (final (emit t' r s')) = batches s'
          /\ returned (emit t' r s') = negb (reaches (max_batch_size s) 1))
    /\ (forall t' cs,
          exists more, batches (final (run t' cs s')) = (batches s' ++ more)%list)
    /\ (conserved s -> forall t' cs, conserved (final (run t' cs s'))).
Proof.
  intros Hwf Hfree.
  assert (Hmain : exists s', flush t s = Done tt s' /\ queue s' = []
            /\ batches s' = (batches s ++ match queue s with [] => [] | _ => [queue s] end)%list
            /\ batch_lock s' = None /\ max_batch_size s' = max_batch_size s).
  { destruct (queue s) as [|r q] eqn:Hq.
    - exists s. rewrite flush_empty by assumption. by rewrite app_nil_r.
    - rewrite flush_nonempty by (rewrite Hq; discriminate).
      rewrite send_batch_free by assumption. rewrite Hq. cbn zeta.
      eexists. split; [reflexivity|].
      match goal with |- queue ?s1 = _ /\ _ =>
        destruct (step_dispatch (negb true) s s1 Hwf) as (_ & H2 & H3 & _);
          [cbn [objs]; by rewrite Hq|reflexivity|reflexivity| |]
      end.
      + cbn [trace]. rewrite emitted_app. cbn. by rewrite app_nil_r.
      + rewrite Hq in H3. done. }
  destruct Hmain as (s' & Hrun & Hq' & Hb & Hl & Hm).
  pose proof (flush_follows t s Hwf) as Hf. rewrite Hrun in Hf. cbn [final] in Hf.
  exists s'. repeat (split; [assumption|]).
  split; [apply Hf|]. split; [|split].
  - intros t' r. rewrite emit_free by assumption. cbn zeta.
    rewrite Hq', Hm. cbn [length app].
    destruct (reaches (max_batch_size s) 1); cbn [final returned negb];
      (split; [apply queue_set_objs'|]); (split; [|reflexivity]);
      (apply batches_eq; [reflexivity|]); intros th Hin; cbn [objs];
      apply lookup_insert_ne; intros Heq;
      destruct Hf as [[_ Hth] _]; by destruct (Hth th Hin).
  - intros t' cs. apply (run_follows t' cs s'). apply Hf.
  - intros Hc t' cs. apply (run_follows t' cs s'); [apply Hf|]. by apply Hf.
Qed.

Lemma flush_detaches_witness :
  let s := final (run 1 [Emit rec_a; Emit rec_b] (init None)) in
  wf s /\ batch_lock s = None
  /\ exists s', flush 1 s = Done tt s' /\ queue s' = []
                /\ batches s' = [[rec_a; rec_b]]
                /\ queue (final (emit 2 rec_c s')) = [rec_c].
Proof.
  cbn zeta. split; [apply (run_follows 1 _ (init None)), wf_init|].
  split; [vm_compute; reflexivity|].
  destruct (flush_detaches 1 (final (run 1 [Emit rec_a; Emit rec_b] (init None))))
    as (s' & Hrun & Hq & Hb & _ & _ & Hemit & _).
  - apply (run_follows 1 _ (init None)), wf_init.
  - vm_compute. reflexivity.
  - exists s'. split; [exact Hrun|]. split; [exact Hq|].
    split; [rewrite Hb; vm_compute; reflexivity|]. apply (Hemit 2 rec_c).
Defined.

(** ** The span of the lock *)

(** A join made by the thread that holds the lock is a wait with the lock
    held. *)
Lemma join_under_lock (t : tid) (th : thread) (tr : list (tid * event * option tid)) :
  In (t, EvJoin th, Some t) tr -> ~ lock_free_while_waiting tr.
Proof.
  intros Hin Hall. specialize (Hall t (EvJoin th) (Some t) Hin eq_refl). discriminate.
Qed.

Lemma no_wait_added (tr more : list (tid * event * option tid)) :
  lock_free_while_waiting tr ->
  (forall t ev holder, In (t, ev, holder) more -> is_wait ev = false) ->
  lock_free_while_waiting (tr ++ more).
Proof.
  intros Hold Hmore t ev holder Hin Hw. apply in_app_or in Hin as [Hin|Hin].
  - by apply (Hold t ev).
  - rewrite (Hmore _ _ _ Hin) in Hw. discriminate.
Qed.

(** [flush] with records queued is: take the lock and dispatch; then, in
    the state that leaves, join and release. *)
Lemma flush_through_join (t : tid) (s : state) :
  batch_lock s = None -> queue s <> [] ->
  flush t s
  = ((acquire t ;; dispatch t true) ≫= (fun th => thread_join t th ;; release t)) s.
Proof.
  intros Hfree Hq. rewrite flush_nonempty by assumption.
  rewrite send_batch_free by assumption.
  destruct s as [mx ob eq lk ths cl tr]. cbn [batch_lock] in Hfree. subst lk.
  unfold queue, read in *. cbn [objs error_queue] in *.
  lazy beta iota zeta delta
    [acquire release dispatch detach thread_start thread_join mbind M_bind mret M_ret
     queue read set_objs log set_lock add_thread
     max_batch_size objs error_queue batch_lock threads closed trace].
  destruct (default [] (ob !! eq)) as [|r q] eqn:Hq0; [done|].
  rewrite <- ?app_assoc, ?Hq0. reflexivity.
Qed.

(** C3, as the code has it. In a call made with the lock free:
    - an [emit] below the size limit returns having held the lock for its
      append and nothing else, whatever the queue held;
    - [_send_batch] returns having held the lock, with nothing queued, for
      nothing, and with records queued over the copy-and-clear, the start
      of the sender thread and, when [wait] is set, the join on that
      thread: only a dispatch with [wait] unset gives the lock back
      without waiting for the send;
    - [flush] and [close] with nothing queued do not take the lock; with
      records queued they are that dispatch with [wait] set, so the join
      happens with the lock held, and an [emit] by any thread in the
      state in which the join takes place waits at [acquire];
    - whenever the lock is held, an [emit] by any thread waits. *)
Theorem lock_span (t : tid) (wait : bool) (r : LogRecord) (s : state) :
  batch_lock s = None ->
  let started := {| th_records := fresh (dom (objs s)); th_daemon := negb wait |} in
  let awaited := {| th_records := fresh (dom (objs s)); th_daemon := false |} in
  let dispatched (w : bool) (th : thread) :=
    ([(t, EvAcquire, None); (t, EvDetach (th_records th), Some t);
      (t, EvStart th, Some t)] ++
     (if w then [(t, EvJoin th, Some t)] else []) ++
     [(t, EvRelease, Some t)])%list in
  (reaches (max_batch_size s) (S (length (queue s))) = false ->
   exists s', emit t r s = Done tt s' /\ batch_lock s' = None
              /\ trace s' = (trace s ++ [(t, EvAcquire, None); (t, EvAppend r, Some t);
                                         (t, EvRelease, Some t)])%list)
  /\ (exists s', _send_batch t wait s = Done tt s' /\ batch_lock s' = None
                 /\ trace s' = (trace s ++
                                  match queue s with
                                  | [] => [(t, EvAcquire, None); (t, EvRelease, Some t)]
                                  | _ => dispatched wait started
                                  end)%list
                 /\ (lock_free_while_waiting (trace s) ->
                     (lock_free_while_waiting (trace s')
                      <-> (wait = false \/ queue s = []))))
  /\ (exists s', flush t s = Done tt s' /\ batch_lock s' = None
                 /\ trace s' = (trace s ++
                                  match queue s with
                                  | [] => []
                                  | _ => dispatched true awaited
                                  end)%list
                 /\ (lock_free_while_waiting (trace s) ->
                     (lock_free_while_waiting (trace s') <-> queue s = [])))
  /\ (exists s', close t s = Done tt s' /\ batch_lock s' = None
                 /\ trace s' = (trace s ++
                                  match queue s with
                                  | [] => []
                                  | _ => dispatched true awaited
                                  end ++ [(t, EvClose, None)])%list)
  /\ (queue s <> [] ->
      let at_join := final ((acquire t ;; dispatch t true) s) in
      flush t s
      = ((acquire t ;; dispatch t true) ≫= (fun th => thread_join t th ;; release t)) s
      /\ batch_lock at_join = Some t
      /\ forall t' r', emit t' r' at_join = Blocked at_join)
  /\ (forall t' holder r' s_held,
        batch_lock s_held = Some holder -> emit t' r' s_held = Blocked s_held).
Proof.
  intros Hfree. cbn zeta.
  assert (Hplain : forall (tr : list (tid * event * option tid)) (l : loc) th,
            lock_free_while_waiting tr ->
            lock_free_while_waiting
              (tr ++ [(t, EvAcquire, None); (t, EvDetach l, Some t);
                      (t, EvStart th, Some t)] ++ [] ++ [(t, EvRelease, Some t)])).
  { intros tr l th Hold. apply no_wait_added; [exact Hold|].
    intros t0 ev holder Hin. cbn in Hin.
    destruct Hin as [H|[H|[H|[H|[]]]]]; by inversion H. }
  assert (Hflush : exists s', flush t s = Done tt s' /\ batch_lock s' = None
                 /\ trace s' = (trace s ++
                                  match queue s with
                                  | [] => []
                                  | _ => [(t, EvAcquire, None);
                                          (t, EvDetach (fresh (dom (objs s))), Some t);
                                          (t, EvStart {| th_records := fresh (dom (objs s));
                                                         th_daemon := false |}, Some t)] ++
                                         [(t, EvJoin {| th_records := fresh (dom (objs s));
                                                        th_daemon := false |}, Some t)] ++
                                         [(t, EvRelease, Some t)]
                                  end)%list).
  { destruct (queue s) as [|r0 q] eqn:Hq.
    - exists s. rewrite flush_empty by assumption. by rewrite app_nil_r.
    - rewrite flush_nonempty by (rewrite Hq; discriminate).
      rewrite send_batch_free by assumption. rewrite Hq. cbn zeta.
      eexists. split; [reflexivity|]. split; reflexivity. }
  split; [|split; [|split; [|split; [|split]]]].
  - intros Hr. rewrite emit_free by assumption. cbn zeta. rewrite Hr.
    eexists. split; [reflexivity|]. split; reflexivity.
  - rewrite send_batch_free by assumption.
    destruct (queue s) as [|r0 q] eqn:Hq; cbn zeta.
    + eexists. split; [reflexivity|]. split; [reflexivity|]. split; [reflexivity|].
      cbn [trace]. intros Hold. split; [by right|]. intros _.
      apply no_wait_added; [exact Hold|]. intros t0 ev holder Hin. cbn in Hin.
      destruct Hin as [H|[H|[]]]; by inversion H.
    + eexists. split; [reflexivity|]. split; [reflexivity|]. split; [reflexivity|].
      cbn [trace th_records]. intros Hold. destruct wait.
      * split; [|intros [H|H]; discriminate]. intros Hall. exfalso.
        eapply (join_under_lock t); [|exact Hall]. apply in_or_app. right.
        cbn [app In]. right. right. right. left. reflexivity.
      * split; [by left|]. intros _.
        by apply Hplain.
  - destruct Hflush as (s' & Hrun & Hl & Htr). exists s'.
    split; [exact Hrun|]. split; [exact Hl|]. split; [exact Htr|].
    intros Hold. rewrite Htr. destruct (queue s) as [|r0 q].
    + rewrite app_nil_r. tauto.
    + split; [|discriminate]. intros Hall. exfalso.
      eapply (join_under_lock t); [|exact Hall]. apply in_or_app. right.
      cbn [app In]. right. right. right. left. reflexivity.
  - destruct Hflush as (s' & Hrun & Hl & Htr).
    unfold close, mbind, M_bind. rewrite Hrun. unfold super_close.
    eexists. split; [reflexivity|]. cbn [batch_lock set_closed log trace].
    split; [exact Hl|]. by rewrite Htr, Hl, <- app_assoc.
  - intros Hq. split; [by apply flush_through_join|].
    assert (Hat : batch_lock (final ((acquire t ;; dispatch t true) s)) = Some t).
    { unfold mbind, M_bind, acquire. rewrite Hfree. reflexivity. }
    split; [exact Hat|]. intros t' r'. by apply (emit_held _ t).
  - intros t' holder r' s_held Hheld. by apply (emit_held _ holder).
Qed.

Lemma lock_span_witness :
  let s := init None in
  batch_lock s = None
  /\ exists s', emit 1 rec_a s = Done tt s' /\ batch_lock s' = None
                /\ trace s' = [(1, EvAcquire, None); (1, EvAppend rec_a, Some 1);
                               (1, EvRelease, Some 1)].
Proof.
  cbn zeta. split; [reflexivity|].
  destruct (lock_span 1 false rec_a (init None) eq_refl) as [Hemit _].
  apply Hemit. reflexivity.
Defined.

(** C3 as stated fails. One record queued, then [flush]: the call is
    acquire, copy-and-clear, start, join, release, so the join (the wait
    for the send in flight) happens with the lock held by the flushing
    thread; an [emit] by another thread in the state in which the join
    takes place stops at [acquire]. *)
Lemma lock_held_during_join :
  let s := final (emit 1 rec_a (init None)) in
  let thread := {| th_records := 1; th_daemon := false |} in
  let at_join := final ((acquire 1 ;; dispatch 1 true) s) in
  trace (final (flush 1 s))
  = (trace s ++ [(1, EvAcquire, None); (1, EvDetach 1, Some 1);
                 (1, EvStart thread, Some 1); (1, EvJoin thread, Some 1);
                 (1, EvRelease, Some 1)])%list
  /\ flush 1 s = ((acquire 1 ;; dispatch 1 true) ≫= (fun th => thread_join 1 th ;; release 1)) s
  /\ batch_lock at_join = Some 1
  /\ emit 2 rec_b at_join = Blocked at_join
  /\ ~ lock_free_while_waiting (trace (final (flush 1 s))).
Proof.
  cbn zeta. split; [vm_compute; reflexivity|]. split; [vm_compute; reflexivity|].
  split; [vm_compute; reflexivity|]. split; [vm_compute; reflexivity|].
  intros Hall.
  specialize (Hall 1 (EvJoin {| th_records := 1; th_daemon := false |}) (Some 1)).
  assert (Some 1 = None); [|discriminate].
  apply Hall; [|reflexivity]. vm_compute. tauto.
Qed.

(** ** A send that fails *)

Section SendFailure.

Variable _format_time : Z -> string.

(** When [send_html_alert] raises an exception [exc] whose class derives
    from [Exception], leaving the world [w'], [_send_email_batch] catches
    it: nothing escapes, [stderr] is left as it was, and one line is
    printed on [stdout]. The handler's state is not an argument of the
    thread body: the batch is not put back in the queue. *)
Lemma send_email_batch_failure (e : env) (self : config) (records : list LogRecord)
    (w w' : world) (exc : exception) :
  send_html_alert e (from_addr self) (to_addr self) (batch_subject self records)
    (_format_html_batch _format_time records) (pwdfile self) (smtp_server self)
    (smtp_port self) w = (Some exc, w') ->
  is_Exception exc = true ->
  _send_email_batch _format_time e self records w
  = (None, {| outbox := outbox w';
              stdout := (stdout w' ++ [("EmailHandler failed to send: " ++ exc_str exc)%string])%list;
              stderr := stderr w' |}).
Proof.
  intros Hsend Hexc. unfold _send_email_batch. rewrite Hsend, Hexc. reflexivity.
Qed.

(** C8. A batch whose send is refused by the server: the exception is
    caught and nothing is raised or delivered, as specified; but the
    report is printed on standard output, and standard error, where the
    specification and the comment in the code put it, stays empty. *)
Theorem send_failure_printed_to_stdout :
  _send_email_batch _format_time refusing_env example_config [rec_a; rec_b] empty_world
  = (None,
     {| outbox := [];
        stdout := ["EmailHandler failed to send: [Errno 111] Connection refused"];
        stderr := [] |}).
Proof. reflexivity. Qed.

End SendFailure.

End MailFacts.

(* ===================================================================== *)
(** * posts.py: further properties *)
(* ===================================================================== *)

Module PostsExtra.
Import Posts PostsFacts.

#[local] Arguments String.append !_ _ / : simpl nomatch.

(** ** Dotted paths *)

Lemma split_cons (sep : ascii) (s : string) :
  exists w ws, split sep s = w :: ws.
Proof.
  induction s as [|c s (w & ws & IH)]; [by eexists _, _|].
  cbn [split]. destruct (Ascii.eqb c sep); [by eexists _, _|].
  rewrite IH. by eexists _, _.
Qed.

Lemma split_app (sep : ascii) (p q : string) :
  split sep (p ++ String sep q) = (split sep p ++ split sep q)%list.
Proof.
  induction p as [|c p IH]; cbn [String.append split].
  - by rewrite Ascii.eqb_refl.
  - destruct (Ascii.eqb c sep); [by rewrite IH|].
    rewrite IH. by destruct (split_cons sep p) as (w & ws & ->).
Qed.

Lemma walk_app (p q : list string) :
  forall v, walk v (p ++ q) = walk v p ≫= (fun c => walk c q).
Proof.
  induction p as [|k p IH]; intros v; [reflexivity|].
  destruct v as [| | | | |d]; try reflexivity.
  cbn [app walk get mbind outcome_bind]. apply IH.
Qed.

(** X1. A dotted path is resolved part by part: walking [p.q] is walking
    [p] and then walking [q] from where that ended, with the exception of
    the first part, if any, raised. *)
Theorem walk_dotted (post : value) (p q : string) :
  walk post (split "." (p ++ "." ++ q))
  = walk post (split "." p) ≫= (fun c => walk c (split "." q)).
Proof.
  change (p ++ "." ++ q) with (p ++ String "." q).
  rewrite split_app. apply walk_app.
Qed.


(** ** The agreement test *)

Lemma py_set_from_unhashable (vs : list value) :
  forall acc, forallb hashable vs = false -> py_set_from vs acc = Raises TypeError.
Proof.
  induction vs as [|v vs IH]; intros acc H; [discriminate|].
  cbn [forallb py_set_from] in *. destruct (hashable v); [by apply IH|reflexivity].
Qed.

Lemma length_set_add (v : value) (s : list value) : length s <= length (set_add v s).
Proof.
  induction s as [|x s IH]; cbn [set_add length]; [lia|].
  destruct (py_eq x v); cbn [length]; lia.
Qed.

Lemma py_set_from_two (vs : list value) :
  forall acc, forallb hashable vs = true -> 2 <= length acc ->
    exists s, py_set_from vs acc = Returns s /\ 2 <= length s.
Proof.
  induction vs as [|v vs IH]; intros acc H Hacc; [by exists acc|].
  cbn [forallb py_set_from] in *. apply andb_true_iff in H as [-> H].
  apply IH; [assumption|]. pose proof (length_set_add v acc). lia.
Qed.

Lemma py_set_from_one (x : value) (vs : list value) :
  forallb hashable vs = true ->
  exists s, py_set_from vs [x] = Returns s
            /\ Nat.eqb (length s) 1 = forallb (py_eq x) vs.
Proof.
  induction vs as [|v vs IH]; intros H; [by exists [x]|].
  cbn [forallb py_set_from set_add] in *. apply andb_true_iff in H as [-> H].
  destruct (py_eq x v); cbn [andb].
  - by apply IH.
  - destruct (py_set_from_two vs [x; v] H) as (s & -> & Hs); [cbn; lia|].
    exists s. split; [reflexivity|]. apply Nat.eqb_neq. lia.
Qed.

Lemma resolve_agreed (post : value) (paths : list string) :
  resolve post paths = collect post paths [] ≫= agreed.
Proof.
  unfold resolve. destruct (collect post paths []) as [vs|e|]; try reflexivity.
  cbn [mbind outcome_bind]. destruct vs as [|v rest]; [reflexivity|].
  unfold agreed, py_set. cbn [forallb py_set_from set_add].
  destruct (hashable v); cbn [andb]; [|reflexivity].
  destruct (forallb hashable rest) eqn:Hh.
  - destruct (py_set_from_one v rest Hh) as (s & Hs & Hlen).
    rewrite Hs. cbn [mbind outcome_bind]. by rewrite Hlen.
  - by rewrite py_set_from_unhashable.
Qed.

Lemma get_post_attr_listed (post post' : value) (attr : string)
    (tbl : gmap string (list string)) (paths : list string) :
  attr <> "__typename" -> unwrapped post = Returns post' ->
  tbl !! attr = Some paths ->
  get_post_attr post attr tbl = (resolve post' paths, []).
Proof.
  intros Hattr Hu Ht. unfold get_post_attr.
  apply String.eqb_neq in Hattr. by rewrite Hattr, Hu, Ht.
Qed.

(** X2. For a listed attribute, the test [len(set(_values)) == 1] comes
    to this: with nothing collected the result is [None]; a collected list
    makes the call raise [TypeError], before any comparison; otherwise the
    first collected value is returned exactly when every later one is
    equal to it, and the assertion fails as soon as one is not. *)
Theorem get_post_attr_agreed (post post' : value) (attr : string)
    (tbl : gmap string (list string)) (paths : list string) :
  attr <> "__typename" -> unwrapped post = Returns post' ->
  tbl !! attr = Some paths ->
  get_post_attr post attr tbl = (collect post' paths [] ≫= agreed, []).
Proof.
  intros Hattr Hu Ht. rewrite (get_post_attr_listed post post' attr tbl paths) by done.
  by rewrite resolve_agreed.
Qed.

Lemma get_post_attr_agreed_witness :
  get_post_attr (wrapper ∅ (long_post "same" "same")) "text" text_table
  = (Returns (VStr "same"), []).
Proof.
  rewrite (get_post_attr_agreed (wrapper ∅ (long_post "same" "same"))
             (long_post "same" "same") "text" text_table
             ["note_tweet.note_tweet_results.result.text"; "legacy.full_text"]).
  - vm_compute. reflexivity.
  - discriminate.
  - vm_compute. reflexivity.
  - vm_compute. reflexivity.
Defined.

(** X3. With a single candidate path the result follows where the walk
    ends: on a dict (an object, or the empty dict that stands for a
    missing key) the result is [None]; on a list the call raises
    [TypeError]; on any other value that value is returned; and an
    exception of the walk is passed on. The assertion cannot fail. *)
Theorem get_post_attr_single (post post' : value) (attr p : string)
    (tbl : gmap string (list string)) :
  attr <> "__typename" -> unwrapped post = Returns post' ->
  tbl !! attr = Some [p] ->
  get_post_attr post attr tbl = (single (walk post' (split "." p)), []).
Proof.
  intros Hattr Hu Ht. rewrite (get_post_attr_listed post post' attr tbl [p]) by done.
  f_equal. unfold resolve. cbn [collect mbind outcome_bind].
  destruct (walk post' (split "." p)) as [v|e|]; try reflexivity.
  destruct v; reflexivity.
Qed.

Lemma get_post_attr_single_witness :
  get_post_attr (VDict {[ "entities" := VDict {[ "hashtags" := VList [VStr "rocq"] ]} ]})
    "hashtags" {[ "hashtags" := ["entities.hashtags"] ]}
  = (Raises TypeError, []).
Proof.
  rewrite (get_post_attr_single
             (VDict {[ "entities" := VDict {[ "hashtags" := VList [VStr "rocq"] ]} ]})
             (VDict {[ "entities" := VDict {[ "hashtags" := VList [VStr "rocq"] ]} ]})
             "hashtags" "entities.hashtags").
  - vm_compute. reflexivity.
  - discriminate.
  - vm_compute. reflexivity.
  - vm_compute. reflexivity.
Defined.

(** ** Candidates that raise, candidates that give nothing *)

Lemma collect_raises (post : value) (p : string) (ps2 : list string) (e : exn)
    (ps1 : list string) :
  forall vs,
    Forall (fun q => exists v, walk post (split "." q) = Returns v) ps1 ->
    walk post (split "." p) = Raises e ->
    collect post (ps1 ++ p :: ps2)%list vs = Raises e.
Proof.
  induction ps1 as [|q ps1 IH]; intros vs Hall Hp; cbn [app collect].
  - by rewrite Hp.
  - inversion Hall as [|? ? [v Hq] Hrest]; subst. rewrite Hq.
    cbn [mbind outcome_bind]. by apply IH.
Qed.

Lemma walk_raises_attribute_error (path : list string) :
  forall v e, walk v path = Raises e -> e = AttributeError.
Proof.
  induction path as [|k path IH]; intros v e H; [discriminate|].
  destruct v as [| | | | |d]; try (by inversion H).
  cbn [walk get mbind outcome_bind] in H. by eapply IH.
Qed.

(** X4. One bad candidate spoils the attribute: when a candidate path
    meets a value that is not a dict before its last part, the call raises
    [AttributeError], whatever the candidates before it gave and whatever
    the ones after it would give. *)
Theorem get_post_attr_bad_candidate (post post' : value) (attr p : string)
    (tbl : gmap string (list string)) (ps1 ps2 : list string) (e : exn) :
  attr <> "__typename" -> unwrapped post = Returns post' ->
  tbl !! attr = Some (ps1 ++ p :: ps2)%list ->
  Forall (fun q => exists v, walk post' (split "." q) = Returns v) ps1 ->
  walk post' (split "." p) = Raises e ->
  get_post_attr post attr tbl = (Raises AttributeError, []).
Proof.
  intros Hattr Hu Ht Hall Hp.
  rewrite (get_post_attr_listed post post' attr tbl (ps1 ++ p :: ps2)%list) by done.
  unfold resolve. rewrite (collect_raises post' p ps2 e) by done.
  by rewrite (walk_raises_attribute_error _ _ _ Hp).
Qed.

Lemma get_post_attr_bad_candidate_witness :
  get_post_attr (VDict {[ "id" := VStr "7"; "legacy" := VStr "gone" ]}) "post_id"
    {[ "post_id" := ["id"; "legacy.id_str"; "rest_id"] ]}
  = (Raises AttributeError, []).
Proof.
  apply (get_post_attr_bad_candidate
           (VDict {[ "id" := VStr "7"; "legacy" := VStr "gone" ]})
           (VDict {[ "id" := VStr "7"; "legacy" := VStr "gone" ]})
           "post_id" "legacy.id_str" _ ["id"] ["rest_id"] AttributeError).
  - discriminate.
  - vm_compute. reflexivity.
  - vm_compute. reflexivity.
  - constructor; [|constructor]. exists (VStr "7"). vm_compute. reflexivity.
  - vm_compute. reflexivity.
Defined.

Lemma collect_nothing (post : value) (paths : list string) :
  forall vs,
    Forall (fun q => exists d, walk post (split "." q) = Returns (VDict d)) paths ->
    collect post paths vs = Returns vs.
Proof.
  induction paths as [|q paths IH]; intros vs Hall; [reflexivity|].
  inversion Hall as [|? ? [d Hq] Hrest]; subst.
  cbn [collect]. rewrite Hq. cbn [mbind outcome_bind is_dict]. by apply IH.
Qed.

(** X5. An attribute whose candidates all end on a dict resolves to
    [None], without a warning: an attribute that is an object cannot be
    told from one that is missing. *)
Theorem get_post_attr_objects_ignored (post post' : value) (attr : string)
    (tbl : gmap string (list string)) (paths : list string) :
  attr <> "__typename" -> unwrapped post = Returns post' ->
  tbl !! attr = Some paths ->
  Forall (fun q => exists d, walk post' (split "." q) = Returns (VDict d)) paths ->
  get_post_attr post attr tbl = (Returns VNone, []).
Proof.
  intros Hattr Hu Ht Hall.
  rewrite (get_post_attr_listed post post' attr tbl paths) by done.
  unfold resolve. by rewrite collect_nothing.
Qed.

Lemma get_post_attr_objects_ignored_witness :
  get_post_attr (legacy_post "hi") "legacy" {[ "legacy" := ["legacy"; "core.user"] ]}
  = (Returns VNone, []).
Proof.
  apply (get_post_attr_objects_ignored (legacy_post "hi") (legacy_post "hi")
           "legacy" _ ["legacy"; "core.user"]).
  - discriminate.
  - vm_compute. reflexivity.
  - vm_compute. reflexivity.
  - constructor; [|constructor; [|constructor]].
    + exists {[ "full_text" := VStr "hi" ]}. vm_compute. reflexivity.
    + exists ∅. vm_compute. reflexivity.
Defined.

(** X6. An envelope that has no ["tweet"] entry stands for an empty post:
    every listed attribute other than ["__typename"] resolves to [None],
    and nothing is raised or logged. *)
Theorem get_post_attr_empty_envelope (d : gmap string value) (attr : string)
    (tbl : gmap string (list string)) (paths : list string) :
  attr <> "__typename" ->
  d !! "__typename" = Some (VStr wrapper_typename) -> d !! "tweet" = None ->
  tbl !! attr = Some paths ->
  get_post_attr (VDict d) attr tbl = (Returns VNone, []).
Proof.
  intros Hattr Hty Htw Ht.
  assert (Hu : unwrapped (VDict d) = Returns (VDict ∅)).
  { rewrite unwrapped_step by (by rewrite Hty). rewrite Htw. reflexivity. }
  rewrite (get_post_attr_listed (VDict d) (VDict ∅) attr tbl paths) by done.
  unfold resolve. rewrite collect_nothing; [reflexivity|].
  apply Forall_forall. intros q _. exists ∅. apply walk_empty.
Qed.

Lemma get_post_attr_empty_envelope_witness :
  get_post_attr (VDict {[ "__typename" := VStr wrapper_typename ]}) "text" text_table
  = (Returns VNone, []).
Proof.
  apply (get_post_attr_empty_envelope {[ "__typename" := VStr wrapper_typename ]}
           "text" text_table
           ["note_tweet.note_tweet_results.result.text"; "legacy.full_text"]).
  - discriminate.
  - vm_compute. reflexivity.
  - vm_compute. reflexivity.
  - vm_compute. reflexivity.
Defined.


(** ** [get_post_attrs] *)

Lemma get_post_attr_no_warning (post : value) (attr : string)
    (tbl : gmap string (list string)) :
  is_Some (tbl !! attr) -> (get_post_attr post attr tbl).2 = [].
Proof.
  intros [paths Ht]. unfold get_post_attr.
  destruct (String.eqb attr "__typename"); [reflexivity|].
  destruct (unwrapped post); try reflexivity. by rewrite Ht.
Qed.

Lemma listed_in_table (items : list (string * list string)) (a : string) :
  a ∈ items.*1 -> is_Some ((list_to_map items : gmap string (list string)) !! a).
Proof.
  intros Hin. destruct (list_to_map items !! a) eqn:Hl; [by eexists|].
  by apply not_elem_of_list_to_map_2 in Hl.
Qed.

Lemma get_post_attrs_from_quiet (post : value) (tbl : gmap string (list string))
    (attrs : list string) :
  forall acc, (forall a, a ∈ attrs -> is_Some (tbl !! a)) ->
              (get_post_attrs_from post tbl attrs acc).2 = [].
Proof.
  induction attrs as [|b rest IH]; intros acc Hall; [reflexivity|].
  cbn [get_post_attrs_from].
  pose proof (get_post_attr_no_warning post b tbl (Hall b ltac:(left))) as Hw.
  destruct (get_post_attr post b tbl) as [[v|e|] ws]; cbn [snd] in Hw; subst ws;
    try reflexivity.
  specialize (IH (<[b := v]> acc) ltac:(intros a Ha; apply Hall; by right)).
  destruct (get_post_attrs_from post tbl rest (<[b := v]> acc)) as [r ws'].
  exact IH.
Qed.

(** X7. [get_post_attrs] never logs the unknown-attribute warning,
    whatever the post and the table: it only asks for names the table
    lists. *)
Theorem get_post_attrs_quiet (post : value) (items : list (string * list string)) :
  (get_post_attrs post items).2 = [].
Proof.
  apply get_post_attrs_from_quiet. intros a Ha. by apply listed_in_table.
Qed.

Lemma get_post_attrs_from_returns (post : value) (tbl : gmap string (list string))
    (attrs : list string) :
  forall acc m ws,
    get_post_attrs_from post tbl attrs acc = (Returns m, ws) ->
    forall a,
      (a ∈ attrs ->
         exists v, m !! a = Some v /\ (get_post_attr post a tbl).1 = Returns v)
      /\ (a ∉ attrs -> m !! a = acc !! a).
Proof.
  induction attrs as [|b rest IH]; intros acc m ws Hrun a.
  - inversion Hrun; subst. split; [intros H; by apply elem_of_nil in H|done].
  - cbn [get_post_attrs_from] in Hrun.
    destruct (get_post_attr post b tbl) as [[v|e|] ws1] eqn:Hb; try discriminate.
    destruct (get_post_attrs_from post tbl rest (<[b := v]> acc)) as [r ws2] eqn:Hrest.
    inversion Hrun; subst r ws. destruct (IH _ _ _ Hrest a) as [Hin Hout].
    split.
    + intros Ha. destruct (decide (a ∈ rest)) as [Hr|Hr]; [by apply Hin|].
      apply elem_of_cons in Ha as [->|Ha]; [|done].
      exists v. rewrite (Hout Hr), lookup_insert_eq, Hb. done.
    + intros Ha. apply not_elem_of_cons in Ha as [Hne Hr].
      rewrite (Hout Hr). by rewrite lookup_insert_ne.
Qed.

(** X8. When [get_post_attrs] returns, its result has exactly the names
    of the table: every listed name carries what [get_post_attr] returns
    for it ([None] included), and no other name is there. *)
Theorem get_post_attrs_result (post : value) (items : list (string * list string))
    (m : gmap string value) (ws : list string) :
  get_post_attrs post items = (Returns m, ws) ->
  forall a,
    (a ∈ items.*1 ->
       exists v, m !! a = Some v
                 /\ (get_post_attr post a (list_to_map items)).1 = Returns v)
    /\ (a ∉ items.*1 -> m !! a = None).
Proof.
  intros Hrun a.
  destruct (get_post_attrs_from_returns post _ _ _ _ _ Hrun a) as [Hin Hout].
  split; [exact Hin|]. intros Ha. by rewrite (Hout Ha).
Qed.

Lemma get_post_attrs_result_witness :
  exists v, ({[ "text" := VStr "hi"; "lang" := VNone ]} : gmap string value) !! "lang"
            = Some v
            /\ (get_post_attr (legacy_post "hi") "lang"
                  (list_to_map [("text", ["legacy.full_text"]); ("lang", ["legacy.lang"])])).1
               = Returns v.
Proof.
  apply (get_post_attrs_result (legacy_post "hi")
           [("text", ["legacy.full_text"]); ("lang", ["legacy.lang"])]
           {[ "text" := VStr "hi"; "lang" := VNone ]} []).
  - vm_compute. reflexivity.
  - cbn [fmap list_fmap fst]. apply elem_of_cons. right. apply elem_of_cons. by left.
Defined.

Lemma get_post_attrs_from_raises (post : value) (tbl : gmap string (list string))
    (a : string) (rest : list string) (e : exn) (before : list string) :
  forall acc,
    (forall b, b ∈ before -> exists v, (get_post_attr post b tbl).1 = Returns v) ->
    (get_post_attr post a tbl).1 = Raises e ->
    (get_post_attrs_from post tbl (before ++ a :: rest) acc).1 = Raises e.
Proof.
  induction before as [|b before IH]; intros acc Hall Ha; cbn [app get_post_attrs_from].
  - destruct (get_post_attr post a tbl) as [[v|e'|] ws]; cbn [fst] in Ha;
      try discriminate. by inversion Ha.
  - destruct (Hall b ltac:(left)) as [v Hb].
    destruct (get_post_attr post b tbl) as [[v'|e'|] ws]; cbn [fst] in Hb;
      try discriminate.
    specialize (IH (<[b := v']> acc) ltac:(intros c Hc; apply Hall; by right) Ha).
    by destruct (get_post_attrs_from post tbl (before ++ a :: rest) (<[b := v']> acc)).
Qed.

(** X9. [get_post_attrs] is all or nothing: when the call for some
    attribute raises, and the calls for the attributes listed before it
    return, [get_post_attrs] raises that exception; the values already
    resolved are lost and the attributes after it are not asked for. *)
Theorem get_post_attrs_first_failure (post : value)
    (before after : list (string * list string)) (a : string) (paths : list string)
    (e : exn) :
  let items := (before ++ (a, paths) :: after)%list in
  (forall b, b ∈ before.*1 ->
             exists v, (get_post_attr post b (list_to_map items)).1 = Returns v) ->
  (get_post_attr post a (list_to_map items)).1 = Raises e ->
  (get_post_attrs post items).1 = Raises e.
Proof.
  intros items Hall Ha. unfold get_post_attrs, items.
  rewrite fmap_app. cbn [fmap list_fmap fst].
  by apply get_post_attrs_from_raises.
Qed.

Lemma get_post_attrs_first_failure_witness :
  (get_post_attrs (long_post "a long text" "a long")
     [("lang", ["legacy.lang"]); ("text", ["note_tweet.note_tweet_results.result.text";
                                           "legacy.full_text"]);
      ("post_id", ["rest_id"])]).1
  = Raises AssertionError.
Proof.
  apply (get_post_attrs_first_failure (long_post "a long text" "a long")
           [("lang", ["legacy.lang"])] [("post_id", ["rest_id"])] "text"
           ["note_tweet.note_tweet_results.result.text"; "legacy.full_text"]
           AssertionError).
  - intros b Hb. apply list_elem_of_singleton in Hb as ->.
    exists VNone. vm_compute. reflexivity.
  - vm_compute. reflexivity.
Defined.

Lemma get_post_attrs_from_unwrapped (p q : value) (tbl : gmap string (list string))
    (attrs : list string) :
  unwrapped p = unwrapped q ->
  forall acc, "__typename" ∉ attrs ->
              get_post_attrs_from p tbl attrs acc = get_post_attrs_from q tbl attrs acc.
Proof.
  intros Hpq. induction attrs as [|b rest IH]; intros acc Hty; [reflexivity|].
  apply not_elem_of_cons in Hty as [Hne Hrest].
  cbn [get_post_attrs_from].
  rewrite (get_post_attr_unwrapped p q b tbl) by done.
  destruct (get_post_attr q b tbl) as [[v|e|] ws]; try reflexivity.
  by rewrite IH.
Qed.

(** X10. As long as the table does not list ["__typename"], the
    envelopes make no difference to [get_post_attrs]: a post wrapped in
    any number of them gives what the inner post gives. *)
Theorem get_post_attrs_unwraps (extras : list (gmap string value)) (inner : value)
    (items : list (string * list string)) :
  "__typename" ∉ items.*1 ->
  get_post_attrs (wrap extras inner) items = get_post_attrs inner items.
Proof.
  intros Hty. apply get_post_attrs_from_unwrapped; [apply wrap_unwrapped|done].
Qed.

Lemma get_post_attrs_unwraps_witness :
  get_post_attrs (wrap [∅; ∅] (legacy_post "hi")) [("text", ["legacy.full_text"])]
  = get_post_attrs (legacy_post "hi") [("text", ["legacy.full_text"])].
Proof.
  apply (get_post_attrs_unwraps [∅; ∅] (legacy_post "hi") [("text", ["legacy.full_text"])]).
  cbn [fmap list_fmap fst]. intros H. apply list_elem_of_singleton in H. discriminate.
Defined.

End PostsExtra.

(* ===================================================================== *)
(** * mail.py: further properties *)
(* ===================================================================== *)

Module MailExtra.
Import Mail MailFacts.

#[local] Arguments String.append !_ _ / : simpl nomatch.

(** ** More on [_escape_html] *)

Lemma string_app_assoc (a b c : string) : (a ++ b) ++ c = a ++ b ++ c.
Proof. induction a as [|x a IH]; cbn [String.append]; [reflexivity|]. by rewrite IH. Qed.

Lemma string_app_nil_r (a : string) : a ++ "" = a.
Proof. induction a as [|x a IH]; cbn [String.append]; [reflexivity|]. by rewrite IH. Qed.

Lemma string_length_app (a b : string) :
  String.length (a ++ b) = String.length a + String.length b.
Proof. induction a as [|x a IH]; cbn [String.append String.length]; [reflexivity|]. by rewrite IH. Qed.

Lemma escape_chars_app (a b : string) :
  escape_chars (a ++ b) = escape_chars a ++ escape_chars b.
Proof.
  induction a as [|x a IH]; cbn [String.append escape_chars]; [reflexivity|].
  by rewrite IH, string_app_assoc.
Qed.

(** X11. Escaping goes through concatenation: a text escaped piece by
    piece and then joined is the joined text escaped. *)
Theorem escape_html_app (a b : string) :
  _escape_html (a ++ b) = _escape_html a ++ _escape_html b.
Proof. rewrite !escape_html_chars. apply escape_chars_app. Qed.

Lemma escape_char_length (c : ascii) :
  (if is_special c then 4 <= String.length (escape_char c)
   else escape_char c = String c EmptyString)
  /\ 1 <= String.length (escape_char c) <= 6.
Proof.
  unfold is_special, escape_char.
  destruct (Ascii.eqb c "&"); [cbn; lia|].
  destruct (Ascii.eqb c "<"); [cbn; lia|].
  destruct (Ascii.eqb c ">"); [cbn; lia|].
  destruct (Ascii.eqb c dquote); [cbn; lia|].
  destruct (Ascii.eqb c "'"); [cbn; lia|]. cbn. split; [reflexivity|lia].
Qed.

Lemma escape_chars_length (text : string) :
  String.length text <= String.length (escape_chars text) <= 6 * String.length text
  /\ (has_special text = true -> String.length text < String.length (escape_chars text)).
Proof.
  induction text as [|c rest [IH1 IH2]]; [cbn; split; [lia|discriminate]|].
  cbn [escape_chars has_special]. rewrite string_length_app. cbn [String.length].
  destruct (escape_char_length c) as [Hs Hb]. split; [lia|].
  destruct (is_special c); cbn [orb]; [lia|].
  intros H. specialize (IH2 H). rewrite Hs. cbn [String.length]. lia.
Qed.

Lemma escape_chars_clean (text : string) :
  has_special text = false -> escape_chars text = text.
Proof.
  induction text as [|c rest IH]; [reflexivity|]. cbn [has_special escape_chars].
  intros H. apply orb_false_iff in H as [Hc Hr].
  destruct (escape_char_cases c) as [Hs| ->]; [congruence|].
  cbn [String.append]. by rewrite IH.
Qed.

Lemma has_special_app (a b : string) :
  has_special (a ++ b) = has_special a || has_special b.
Proof.
  induction a as [|x a IH]; cbn [String.append has_special]; [reflexivity|].
  by rewrite IH, orb_assoc.
Qed.

Lemma has_special_escape_char (c : ascii) :
  has_special (escape_char c) = is_special c.
Proof.
  unfold escape_char, is_special.
  destruct (Ascii.eqb c "&") eqn:E1; [reflexivity|].
  destruct (Ascii.eqb c "<") eqn:E2; [reflexivity|].
  destruct (Ascii.eqb c ">") eqn:E3; [reflexivity|].
  destruct (Ascii.eqb c dquote) eqn:E4; [reflexivity|].
  destruct (Ascii.eqb c "'") eqn:E5; [reflexivity|].
  cbn [has_special]. unfold is_special. by rewrite E1, E2, E3, E4, E5.
Qed.

Lemma has_special_escape_chars (text : string) :
  has_special (escape_chars text) = has_special text.
Proof.
  induction text as [|c rest IH]; [reflexivity|].
  cbn [escape_chars has_special].
  by rewrite has_special_app, has_special_escape_char, IH.
Qed.

Lemma escape_fixed (text : string) :
  _escape_html text = text <-> has_special text = false.
Proof.
  rewrite escape_html_chars. split.
  - intros H. destruct (has_special text) eqn:Hs; [|reflexivity].
    destruct (escape_chars_length text) as [_ Hlt]. specialize (Hlt Hs).
    rewrite H in Hlt. lia.
  - apply escape_chars_clean.
Qed.

(** X12. Escaping leaves a text as it is exactly when the text has none
    of the five characters; and it is not idempotent: escaping an escaped
    text changes it again exactly when the text had one of the five
    (every entity brings an ampersand). *)
Theorem escape_html_fixed (text : string) :
  (_escape_html text = text <-> has_special text = false)
  /\ (_escape_html (_escape_html text) = _escape_html text
      <-> has_special text = false).
Proof.
  split; [apply escape_fixed|].
  rewrite escape_fixed, escape_html_chars. by rewrite has_special_escape_chars.
Qed.

(** X13. Escaping never shortens a text and makes it at most six times
    as long (the longest entity, for the double quote, has six
    characters). *)
Theorem escape_html_length (text : string) :
  String.length text <= String.length (_escape_html text) <= 6 * String.length text.
Proof. rewrite escape_html_chars. apply escape_chars_length. Qed.


(** ** What goes into the HTML body *)

Lemma contains_refl (s : string) : contains s s.
Proof. exists "", "". cbn [String.append]. by rewrite string_app_nil_r. Qed.

Lemma contains_app_l (sub a b : string) : contains sub a -> contains sub (a ++ b).
Proof.
  intros (pre & post & ->). exists pre, (post ++ b).
  by rewrite !string_app_assoc.
Qed.

Lemma contains_app_r (sub a b : string) : contains sub b -> contains sub (a ++ b).
Proof.
  intros (pre & post & ->). exists (a ++ pre), post.
  by rewrite !string_app_assoc.
Qed.

Ltac find_part :=
  first [ apply contains_refl
        | apply contains_app_l; apply contains_refl
        | apply contains_app_r; find_part ].

Section Rendering.

Variable _format_time : Z -> string.

Lemma html_record_message (many : bool) (i : nat) (r : LogRecord) :
  contains (getMessage r) (html_record _format_time many i r).
Proof.
  unfold html_record, lines. cbn [String.concat].
  apply contains_app_l.
  do 6 apply contains_app_r. apply contains_app_l.
  do 4 apply contains_app_r. apply contains_refl.
Qed.

Lemma html_record_trace (many : bool) (i : nat) (r : LogRecord) (exc_text : string) :
  exc_info r = Some exc_text ->
  contains (_escape_html exc_text) (html_record _format_time many i r).
Proof.
  intros H. unfold html_record. rewrite H. unfold stacktrace_block.
  apply contains_app_r, contains_app_l, contains_app_r, contains_app_l.
  apply contains_refl.
Qed.

Lemma html_records_part (sub : string) (many : bool) (r : LogRecord)
    (records : list LogRecord) :
  In r records ->
  (forall i, contains sub (html_record _format_time many i r)) ->
  forall i, contains sub (html_records _format_time many i records).
Proof.
  intros Hin Hr. induction records as [|x records IH]; [destruct Hin|].
  intros i. cbn [html_records]. destruct Hin as [->|Hin].
  - apply contains_app_l, Hr.
  - apply contains_app_r, IH, Hin.
Qed.

(** X14. In the body of the e-mail the message of every record of the
    batch stands as it is, unescaped, whatever characters it has, while
    the trace of every record that has one stands escaped. *)
Theorem format_html_batch_parts (records : list LogRecord) (r : LogRecord) :
  In r records ->
  contains (getMessage r) (_format_html_batch _format_time records)
  /\ (forall exc_text, exc_info r = Some exc_text ->
        contains (_escape_html exc_text) (_format_html_batch _format_time records)).
Proof.
  intros Hin. unfold _format_html_batch. split; [|intros exc_text He].
  - apply contains_app_r, contains_app_r, contains_app_l.
    apply (html_records_part _ _ r); [assumption|].
    intros i. apply html_record_message.
  - apply contains_app_r, contains_app_r, contains_app_l.
    apply (html_records_part _ _ r); [assumption|].
    intros i. by apply html_record_trace.
Qed.

(** X15. Records are rendered one after the other, numbered on from
    where the ones before them stopped: the blocks of a batch are the
    blocks of its first part followed by those of the rest. *)
Theorem html_records_app (many : bool) (i : nat) (first rest : list LogRecord) :
  html_records _format_time many i (first ++ rest)
  = html_records _format_time many i first
    ++ html_records _format_time many (i + length first) rest.
Proof.
  revert i. induction first as [|r first IH]; intros i.
  - cbn [app html_records length String.append]. by rewrite Nat.add_0_r.
  - cbn [app html_records length]. rewrite IH, string_app_assoc.
    by rewrite Nat.add_succ_comm.
Qed.


End Rendering.

Lemma format_html_batch_parts_witness :
  contains "<b>boom</b>"
    (_format_html_batch (fun _ => "12:00") [rec_a; record "ERROR" "<b>boom</b>"]).
Proof.
  apply (format_html_batch_parts (fun _ => "12:00")
           [rec_a; record "ERROR" "<b>boom</b>"] (record "ERROR" "<b>boom</b>")).
  right. left. reflexivity.
Defined.


(** ** The handler: when a call returns *)

Lemma reaches_unlimited (limit : option Z) (n : nat) :
  unlimited limit = true -> reaches limit n = false.
Proof. destruct limit as [l|]; [|reflexivity]. cbn. by intros ->. Qed.

(** What a call made with the lock free leaves: the lock free again if it
    returns; and only [emit] can fail to return. *)
Lemma exec_free (t : tid) (c : call) (s : state) :
  batch_lock s = None ->
  match exec t c s with
  | Done _ s' => batch_lock s' = None /\ max_batch_size s' = max_batch_size s
  | Blocked s' =>
      batch_lock s' = Some t
      /\ exists r, c = Emit r
                   /\ reaches (max_batch_size s) (S (length (queue s))) = true
  end.
Proof.
  intros Hfree.
  assert (Hsend : forall wait, exists s', _send_batch t wait s = Done tt s'
            /\ batch_lock s' = None /\ max_batch_size s' = max_batch_size s).
  { intros wait. rewrite send_batch_free by assumption.
    destruct (queue s); eexists; (split; [reflexivity|done]). }
  destruct c as [r| | |wait]; cbn [exec].
  - rewrite emit_free by assumption. cbn zeta.
    destruct (reaches _ _) eqn:Hr; [|done]. split; [reflexivity|]. by exists r.
  - destruct (queue s) as [|r q] eqn:Hq.
    + rewrite flush_empty by assumption. done.
    + rewrite flush_nonempty by (rewrite Hq; discriminate).
      destruct (Hsend true) as (s' & -> & H). exact H.
  - unfold close, mbind, M_bind. destruct (queue s) as [|r q] eqn:Hq.
    + rewrite flush_empty by assumption. done.
    + rewrite flush_nonempty by (rewrite Hq; discriminate).
      destruct (Hsend true) as (s' & -> & H). exact H.
  - destruct (Hsend wait) as (s' & -> & H). exact H.
Qed.

(** X17. Called with the lock free, a call that returns has given the
    lock back, and the only call that can fail to return is the [emit]
    that brings the queue up to the size limit: it stops holding the
    lock. [flush], [close] and [_send_batch] always return. *)
Theorem only_emit_blocks (t : tid) (c : call) (s : state) :
  batch_lock s = None ->
  match exec t c s with
  | Done _ s' => batch_lock s' = None
  | Blocked s' =>
      batch_lock s' = Some t
      /\ exists r, c = Emit r
                   /\ reaches (max_batch_size s) (S (length (queue s))) = true
  end.
Proof.
  intros Hfree. pose proof (exec_free t c s Hfree) as H.
  destruct (exec t c s); [apply H|exact H].
Qed.

Lemma only_emit_blocks_witness :
  batch_lock (final (flush 1 (final (emit 1 rec_a (init (Some 3%Z)))))) = None.
Proof.
  pose proof (only_emit_blocks 1 Flush (final (emit 1 rec_a (init (Some 3%Z))))) as H.
  cbn [exec] in H.
  destruct (flush 1 (final (emit 1 rec_a (init (Some 3%Z))))) as [[] s'|s'] eqn:Hf.
  - cbn [final]. apply H. vm_compute. reflexivity.
  - exfalso. destruct H as (_ & r & Hr & _); [vm_compute; reflexivity|discriminate].
Defined.

(** X18. With no size limit ([max_batch_size] [None] or [0]) and the lock
    free, every sequence of calls returns, with the lock free at the
    end: a handler without a limit does not block its caller. *)
Theorem unlimited_never_blocks (t : tid) (cs : list call) (s : state) :
  unlimited (max_batch_size s) = true -> batch_lock s = None ->
  exists s', run t cs s = Done tt s' /\ batch_lock s' = None.
Proof.
  revert s. induction cs as [|c cs IH]; intros s Hu Hfree; [by exists s|].
  cbn [run]. unfold mbind, M_bind. pose proof (exec_free t c s Hfree) as H.
  destruct (exec t c s) as [[] s1|s1].
  - destruct H as [Hl Hm]. apply IH; [by rewrite Hm|assumption].
  - destruct H as (_ & r & _ & Hr). by rewrite reaches_unlimited in Hr.
Qed.

Lemma unlimited_never_blocks_witness :
  exists s', run 1 [Emit rec_a; Emit rec_b; Flush; Emit rec_c; Close] (init (Some 0%Z))
             = Done tt s'
             /\ batch_lock s' = None.
Proof.
  apply (unlimited_never_blocks 1 [Emit rec_a; Emit rec_b; Flush; Emit rec_c; Close]
           (init (Some 0%Z))); reflexivity.
Defined.

(** X19. With a size limit set and the lock free, [emit] appends its
    record and starts no thread; it returns exactly when the limit is [0]
    or the queue, the new record included, is still shorter than the
    limit. So a negative limit stops the first [emit]. *)
Theorem emit_returns_below_limit (t : tid) (r : LogRecord) (limit : Z) (s : state) :
  batch_lock s = None -> max_batch_size s = Some limit ->
  (returned (emit t r s) = true
   <-> (limit = 0 \/ Z.of_nat (S (length (queue s))) < limit)%Z)
  /\ queue (final (emit t r s)) = (queue s ++ [r])%list
  /\ threads (final (emit t r s)) = threads s.
Proof.
  intros Hfree Hm. rewrite emit_free by assumption. cbn zeta. rewrite Hm.
  unfold reaches.
  destruct (limit =? 0)%Z eqn:H0; cbn [negb andb].
  - cbn [returned final threads]. rewrite queue_set_objs'. apply Z.eqb_eq in H0.
    split; [|done]. split; [by left|done].
  - apply Z.eqb_neq in H0.
    destruct (limit <=? Z.of_nat (S (length (queue s))))%Z eqn:Hle;
      cbn [returned final threads]; rewrite queue_set_objs'.
    + apply Z.leb_le in Hle. split; [|done]. split; [discriminate|lia].
    + apply Z.leb_gt in Hle. split; [|done]. split; [by right|done].
Qed.

Lemma emit_returns_below_limit_witness :
  returned (emit 1 rec_a (init (Some (-1)%Z))) = true
  <-> ((-1) = 0 \/ Z.of_nat (S (length (queue (init (Some (-1)%Z))))) < -1)%Z.
Proof.
  apply (emit_returns_below_limit 1 rec_a (-1) (init (Some (-1)%Z))); reflexivity.
Defined.

(** X20. A limit of [0] is no limit: however many records are emitted,
    every [emit] returns, the records queue up in order and no thread is
    started. The same holds with [max_batch_size] unset. *)
Theorem emits_unlimited (t : tid) (rs : list LogRecord) (s : state) :
  unlimited (max_batch_size s) = true -> batch_lock s = None ->
  exists s', run t (map Emit rs) s = Done tt s'
             /\ queue s' = (queue s ++ rs)%list /\ threads s' = threads s
             /\ batch_lock s' = None.
Proof.
  revert s. induction rs as [|r rs IH]; intros s Hu Hfree.
  - exists s. by rewrite app_nil_r.
  - cbn [map run exec]. unfold mbind, M_bind.
    rewrite emit_free by assumption. cbn zeta.
    rewrite reaches_unlimited by assumption.
    match goal with |- context [run t (map Emit rs) ?s1] =>
      destruct (IH s1) as (s' & Hrun & Hq & Ht & Hl); [exact Hu|reflexivity|]
    end.
    exists s'. split; [exact Hrun|]. split; [|done].
    rewrite Hq, queue_set_objs'. by rewrite <- app_assoc.
Qed.

Lemma emits_unlimited_witness :
  exists s', run 1 (map Emit [rec_a; rec_b; rec_c]) (init (Some 0%Z)) = Done tt s'
             /\ queue s' = [rec_a; rec_b; rec_c] /\ threads s' = [].
Proof.
  destruct (emits_unlimited 1 [rec_a; rec_b; rec_c] (init (Some 0%Z)))
    as (s' & Hrun & Hq & Ht & _); [reflexivity..|].
  exists s'. split; [exact Hrun|]. split; [|exact Ht].
  rewrite Hq. vm_compute. reflexivity.
Defined.


(** ** The handler: what a call adds *)

(** [_send_batch] either changes neither the batches nor the threads, or
    (lock free, queue not empty) hands the queue to one new thread. *)
Lemma send_batch_grows (t : tid) (wait : bool) (s : state) :
  wf s ->
  let s' := final (_send_batch t wait s) in
  wf s'
  /\ ((batches s' = batches s /\ threads s' = threads s /\ queue s' = queue s)
      \/ (queue s <> [] /\ batches s' = (batches s ++ [queue s])%list
          /\ queue s' = []
          /\ threads s' = (threads s ++ [{| th_records := fresh (dom (objs s));
                                            th_daemon := negb wait |}])%list)).
Proof.
  intros Hwf. cbn zeta. destruct (batch_lock s) as [holder|] eqn:Hl.
  - rewrite (send_batch_held _ holder) by assumption. cbn [final]. split; [done|by left].
  - rewrite send_batch_free by assumption.
    destruct (queue s) as [|r q] eqn:Hq; cbn [final].
    + match goal with |- wf ?s1 /\ _ =>
        destruct (step_idle s s1 Hwf) as (H1 & H2 & H3 & _);
          [reflexivity|reflexivity|reflexivity| |]
      end.
      * cbn [trace]. rewrite emitted_app. cbn. by rewrite app_nil_r.
      * split; [exact H1|]. left. rewrite H2, H3, Hq. done.
    + match goal with |- wf ?s1 /\ _ =>
        destruct (step_dispatch (negb wait) s s1 Hwf) as (H1 & H2 & H3 & _);
          [cbn [objs]; by rewrite Hq|reflexivity|reflexivity| |]
      end.
      * cbn [trace]. rewrite emitted_app. destruct wait; cbn; by rewrite app_nil_r.
      * split; [exact H1|]. right. rewrite H2, H3, Hq. done.
Qed.

Lemma emit_grows (t : tid) (r : LogRecord) (s : state) :
  wf s ->
  let s' := final (emit t r s) in
  wf s' /\ batches s' = batches s /\ threads s' = threads s.
Proof.
  intros Hwf. cbn zeta. destruct (batch_lock s) as [holder|] eqn:Hl.
  - by rewrite (emit_held _ holder) by assumption.
  - rewrite emit_free by assumption. cbn zeta.
    destruct (reaches _ _); cbn [final];
      match goal with |- wf ?s1 /\ _ =>
        destruct (step_append r s s1 Hwf) as (H1 & _ & H3 & _);
          [reflexivity|reflexivity|reflexivity| |done]
      end;
      cbn [trace]; rewrite emitted_app; reflexivity.
Qed.

Lemma flush_grows (t : tid) (s : state) :
  wf s ->
  let s' := final (flush t s) in
  wf s'
  /\ ((batches s' = batches s /\ threads s' = threads s /\ queue s' = queue s)
      \/ (queue s <> [] /\ batches s' = (batches s ++ [queue s])%list
          /\ queue s' = []
          /\ threads s' = (threads s ++ [{| th_records := fresh (dom (objs s));
                                            th_daemon := false |}])%list)).
Proof.
  intros Hwf. cbn zeta. destruct (queue s) as [|r q] eqn:Hq.
  - rewrite flush_empty by assumption. cbn [final]. split; [done|]. left. by rewrite Hq.
  - rewrite flush_nonempty by (rewrite Hq; discriminate).
    pose proof (send_batch_grows t true s Hwf) as H. cbn zeta in H.
    by rewrite Hq in H.
Qed.

Lemma close_grows (t : tid) (s : state) :
  wf s ->
  let s' := final (close t s) in
  wf s'
  /\ ((batches s' = batches s /\ threads s' = threads s /\ queue s' = queue s)
      \/ (queue s <> [] /\ batches s' = (batches s ++ [queue s])%list
          /\ queue s' = []
          /\ threads s' = (threads s ++ [{| th_records := fresh (dom (objs s));
                                            th_daemon := false |}])%list)).
Proof.
  intros Hwf. cbn zeta. pose proof (flush_grows t s Hwf) as [Hwf1 H]. cbn zeta in *.
  unfold close, mbind, M_bind.
  destruct (flush t s) as [[] s1|s1]; cbn [final] in *; [|done].
  split; [|exact H].
  destruct Hwf1 as [Hq Hth]. split; [exact Hq|exact Hth].
Qed.

(** Every call: the batches and threads already there stay, and what is
    added is one batch, not empty, on one thread, or nothing. *)
Lemma exec_grows (t : tid) (c : call) (s : state) :
  wf s ->
  let s' := final (exec t c s) in
  wf s'
  /\ exists more ths,
       batches s' = (batches s ++ more)%list /\ Forall (fun b => b <> []) more
       /\ threads s' = (threads s ++ ths)%list
       /\ (public c = true -> Forall (fun th => th_daemon th = false) ths).
Proof.
  intros Hwf. cbn zeta.
  assert (Hcase : forall s' daemon,
    wf s' ->
    (batches s' = batches s /\ threads s' = threads s /\ queue s' = queue s)
    \/ (queue s <> [] /\ batches s' = (batches s ++ [queue s])%list
        /\ queue s' = []
        /\ threads s' = (threads s ++ [{| th_records := fresh (dom (objs s));
                                          th_daemon := daemon |}])%list) ->
    (public c = true -> daemon = false) ->
    wf s' /\ exists more ths,
       batches s' = (batches s ++ more)%list /\ Forall (fun b => b <> []) more
       /\ threads s' = (threads s ++ ths)%list
       /\ (public c = true -> Forall (fun th => th_daemon th = false) ths)).
  { intros s' daemon Hwf' [(Hb & Ht & _)|(Hq & Hb & _ & Ht)] Hd; (split; [exact Hwf'|]).
    - exists [], []. rewrite !app_nil_r. done.
    - eexists [queue s], [_]. repeat split; try eassumption.
      + by constructor.
      + intros Hp. constructor; [|constructor]. cbn [th_daemon]. by apply Hd. }
  destruct c as [r| | |wait]; cbn [exec].
  - destruct (emit_grows t r s Hwf) as (H1 & H2 & H3). cbn zeta in *.
    split; [exact H1|]. exists [], []. rewrite !app_nil_r. done.
  - destruct (flush_grows t s Hwf) as [H1 H2]. by apply (Hcase _ false).
  - destruct (close_grows t s Hwf) as [H1 H2]. by apply (Hcase _ false).
  - destruct (send_batch_grows t wait s Hwf) as [H1 H2].
    apply (Hcase _ (negb wait)); [assumption..|discriminate].
Qed.

(** X21. No empty batch is ever sent: whatever is called on a new
    handler, every batch handed to a sender thread holds at least one
    record. *)
Theorem batches_never_empty (limit : option Z) (t : tid) (cs : list call) :
  Forall (fun b => b <> []) (batches (final (run t cs (init limit)))).
Proof.
  assert (H : forall s, wf s -> Forall (fun b => b <> []) (batches s) ->
                        Forall (fun b => b <> []) (batches (final (run t cs s)))).
  { induction cs as [|c cs IH]; intros s Hwf Hb; [exact Hb|].
    cbn [run]. unfold mbind, M_bind.
    destruct (exec_grows t c s Hwf) as (Hwf1 & more & ths & Hm & Hne & _).
    cbn zeta in *. destruct (exec t c s) as [[] s1|s1]; cbn [final] in *.
    - apply IH; [exact Hwf1|]. rewrite Hm. by apply Forall_app.
    - rewrite Hm. by apply Forall_app. }
  apply H; [apply wf_init|]. constructor.
Qed.

(** X22. The public calls ([emit], [flush], [close]) never start a daemon
    thread: every thread they start is one the caller then waits for. The
    fire-and-forget send of [_send_batch()] is reached only through the
    [emit] at the size limit, which stops before it. *)
Theorem public_threads_not_daemon (limit : option Z) (t : tid) (cs : list call) :
  forallb public cs = true ->
  Forall (fun th => th_daemon th = false) (threads (final (run t cs (init limit)))).
Proof.
  assert (H : forall s, wf s -> forallb public cs = true ->
                        Forall (fun th => th_daemon th = false) (threads s) ->
                        Forall (fun th => th_daemon th = false)
                          (threads (final (run t cs s)))).
  { induction cs as [|c cs IH]; intros s Hwf Hp Hb; [exact Hb|].
    cbn [forallb] in Hp. apply andb_true_iff in Hp as [Hc Hp].
    cbn [run]. unfold mbind, M_bind.
    destruct (exec_grows t c s Hwf) as (Hwf1 & more & ths & _ & _ & Ht & Hd).
    cbn zeta in *. destruct (exec t c s) as [[] s1|s1]; cbn [final] in *.
    - apply IH; [exact Hwf1|exact Hp|]. rewrite Ht. apply Forall_app. auto.
    - rewrite Ht. apply Forall_app. auto. }
  intros Hp. apply H; [apply wf_init|exact Hp|]. constructor.
Qed.

Lemma public_threads_not_daemon_witness :
  Forall (fun th => th_daemon th = false)
    (threads (final (run 1 [Emit rec_a; Flush; Emit rec_b; Close] (init None)))).
Proof.
  apply (public_threads_not_daemon None 1 [Emit rec_a; Flush; Emit rec_b; Close]).
  reflexivity.
Defined.

(** X23. Flushing twice is flushing once: with the lock free, a [flush]
    right after a [flush] finds the queue empty, takes no lock, starts no
    thread and leaves the state as it is. *)
Theorem flush_idempotent (t : tid) (s : state) :
  wf s -> batch_lock s = None ->
  (flush t ;; flush t) s = flush t s.
Proof.
  intros Hwf Hfree. unfold mbind, M_bind.
  destruct (queue s) as [|r q] eqn:Hq.
  - rewrite flush_empty by assumption. by apply flush_empty.
  - rewrite flush_nonempty by (rewrite Hq; discriminate).
    rewrite send_batch_free by assumption. rewrite Hq. cbn zeta.
    apply flush_empty. apply queue_set_objs'.
Qed.


Lemma flush_idempotent_witness :
  (flush 1 ;; flush 1) (final (emit 1 rec_a (init None)))
  = flush 1 (final (emit 1 rec_a (init None))).
Proof.
  apply (flush_idempotent 1 (final (emit 1 rec_a (init None)))).
  - apply (emit_follows 1 rec_a (init None)), wf_init.
  - vm_compute. reflexivity.
Defined.

(** X24. With the lock free, [close] returns with the handler marked
    closed, the queue empty and the records that were pending handed, as
    one batch, to a thread that is not a daemon. Closing does not switch
    the handler off: a later [emit] still queues its record, and closing
    again sends nothing more. *)
Theorem close_flushes (t : tid) (s : state) :
  wf s -> batch_lock s = None ->
  exists s',
    close t s = Done tt s'
    /\ closed s' = true /\ queue s' = [] /\ batch_lock s' = None
    /\ batches s' = (batches s ++ match queue s with [] => [] | _ => [queue s] end)%list
    /\ (forall th, In th (threads s') -> In th (threads s) \/ th_daemon th = false)
    /\ (forall t' r, queue (final (emit t' r s')) = [r])
    /\ (forall t', batches (final (close t' s')) = batches s').
Proof.
  intros Hwf Hfree.
  pose proof (exec_free t Close s Hfree) as Hret. cbn [exec] in Hret.
  destruct (close_grows t s Hwf) as [Hwf' Hg]. cbn zeta in *.
  assert (Hshape : exists s1, flush t s = Done tt s1 /\ queue s1 = []
                              /\ close t s = Done tt (set_closed (log t EvClose s1))).
  { unfold close, mbind, M_bind. destruct (queue s) as [|r q] eqn:Hq.
    - exists s. rewrite flush_empty by assumption. done.
    - rewrite flush_nonempty by (rewrite Hq; discriminate).
      rewrite send_batch_free by assumption. rewrite Hq. cbn zeta.
      eexists. split; [reflexivity|]. split; [apply queue_set_objs'|reflexivity]. }
  destruct Hshape as (s1 & Hf & Hq1 & Hc). rewrite Hc in *. cbn [final] in *.
  destruct Hret as [Hl _].
  assert (Hq' : queue (set_closed (log t EvClose s1)) = []) by exact Hq1.
  eexists. split; [reflexivity|]. split; [reflexivity|]. split; [exact Hq'|].
  split; [exact Hl|]. split; [|split; [|split]].
  - destruct Hg as [(Hb & _ & Hq)|(Hne & Hb & _)].
    + rewrite Hb. rewrite Hq' in Hq. rewrite <- Hq. by rewrite app_nil_r.
    + rewrite Hb. by destruct (queue s).
  - intros th Hin. destruct Hg as [(_ & Ht & _)|(_ & _ & _ & Ht)]; rewrite Ht in Hin.
    + by left.
    + apply in_app_or in Hin as [Hin|[<-|[]]]; [by left|by right].
  - intros t' r. rewrite emit_free by exact Hl. cbn zeta. rewrite Hq'.
    destruct (reaches _ _); cbn [final]; apply queue_set_objs'.
  - intros t'. destruct (close_grows t' _ Hwf') as [_ [(Hb & _)|(Hne & _)]]; cbn zeta in *.
    + exact Hb.
    + by rewrite Hq' in Hne.
Qed.

Lemma close_flushes_witness :
  exists s', close 1 (final (run 1 [Emit rec_a; Emit rec_b] (init None))) = Done tt s'
             /\ closed s' = true /\ queue s' = []
             /\ queue (final (emit 1 rec_c s')) = [rec_c].
Proof.
  destruct (close_flushes 1 (final (run 1 [Emit rec_a; Emit rec_b] (init None))))
    as (s' & Hrun & Hc & Hq & _ & _ & _ & Hemit & _).
  - apply (run_follows 1 _ (init None)), wf_init.
  - vm_compute. reflexivity.
  - exists s'. split; [exact Hrun|]. split; [exact Hc|]. split; [exact Hq|].
    apply (Hemit 1 rec_c).
Defined.

End MailExtra.
